(** * Contact Manager: the CSV ingestion pipeline

    A shallow embedding of the services of the Contact Manager app
    (csvService: fetchCSVFromURL, parseCSVWithFallbacks, manualCSVParse,
    loadLocalCSV, formatPhone, formatContact, getContacts,
    clearContactsCache; cacheService: downloadAndCacheCSV; exportService:
    exportContacts) and the properties of the ingestion pipeline.

    Conventions.
    - A JS string is a [string]; its characters are the code units below 256.
    - A JS value that is either a string or undefined is read through the
      truthiness the source relies on: undefined and the empty string are
      both falsy.
    - A promise that rejects (or a statement that throws) is [Err]; the
      try/catch blocks of the source are [try_catch].
    - The network, the file system and the clock are an explicit [World];
      every call into them is recorded as an [Event]. *)

From Equations Require Import Equations.
From stdpp Require Import gmap strings list pretty.
From Stdlib Require Import ZArith Ascii String.

Local Open Scope string_scope.
Local Open Scope Z_scope.
Local Open Scope list_scope.

(* ===================================================================== *)
(** ** Characters and strings as JavaScript sees them *)
(* ===================================================================== *)

Definition char_nl : ascii := "010"%char.
Definition char_cr : ascii := "013"%char.
Definition char_quote : ascii := "034"%char.
Definition char_comma : ascii := ","%char.

Definition chars (s : string) : list ascii := list_ascii_of_string s.
Definition str (l : list ascii) : string := string_of_list_ascii l.

(** The class \d of a JS regular expression: the ten ASCII digits. *)
Definition is_digit (c : ascii) : bool :=
  let n := nat_of_ascii c in (48 <=? n)%nat && (n <=? 57)%nat.

(** The class \s (and the characters trim removes), among code units below
    256: tab, line feed, vertical tab, form feed, carriage return, space and
    the no-break space. *)
Definition is_space (c : ascii) : bool :=
  let n := nat_of_ascii c in
  ((9 <=? n)%nat && (n <=? 13)%nat) || (n =? 32)%nat || (n =? 160)%nat.

Fixpoint drop_while (f : ascii -> bool) (l : list ascii) : list ascii :=
  match l with
  | [] => []
  | c :: r => if f c then drop_while f r else l
  end.

(** [s.trim()] *)
Definition trim_chars (l : list ascii) : list ascii :=
  rev (drop_while is_space (rev (drop_while is_space l))).

Definition trim (s : string) : string := str (trim_chars (chars s)).

(** [s.replace(/\D/g, '')] *)
Definition strip_non_digits (s : string) : string :=
  str (filter (fun c => is_digit c = true) (chars s)).

(** [s.replace(/\s/g, '_')]: every whitespace character becomes an underscore. *)
Definition underscore_each_space (s : string) : string :=
  str (map (fun c => if is_space c then "_"%char else c) (chars s)).

(** [s.replace(/\s+/g, '_')]: every maximal run of whitespace becomes one
    underscore. [in_run] tells that the previous character was whitespace. *)
Fixpoint collapse_go (in_run : bool) (l : list ascii) : list ascii :=
  match l with
  | [] => []
  | c :: r =>
      if is_space c
      then (if in_run then collapse_go true r else "_"%char :: collapse_go true r)
      else c :: collapse_go false r
  end.

Definition collapse_spaces (s : string) : string := str (collapse_go false (chars s)).

(** [s.replace(/Q/g, '')] where Q is the double quote: every double quote is
    removed. *)
Definition remove_quotes (s : string) : string :=
  str (filter (fun c => c <> char_quote) (chars s)).

(** [s.replace(/^Q|Q$/g, '')] where Q is the double quote: one leading and
    one trailing double quote are removed. *)
Definition strip_outer_quotes (s : string) : string :=
  let l := match chars s with
           | c :: r => if bool_decide (c = char_quote) then r else c :: r
           | [] => []
           end in
  str (match rev l with
       | c :: r => if bool_decide (c = char_quote) then rev r else l
       | [] => []
       end).

(** [s.split(sep)] for a one-character separator: never the empty list. *)
Fixpoint split_go (sep : ascii) (cur : list ascii) (l : list ascii) : list string :=
  match l with
  | [] => [str (rev cur)]
  | c :: r =>
      if bool_decide (c = sep) then str (rev cur) :: split_go sep [] r
      else split_go sep (c :: cur) r
  end.

Definition split (sep : ascii) (s : string) : list string := split_go sep [] (chars s).

(** [parts.join(sep)] *)
Fixpoint join (sep : string) (parts : list string) : string :=
  match parts with
  | [] => ""
  | [p] => p
  | p :: rest => p +:+ sep +:+ join sep rest
  end.

(** [a || b] on values that are strings or undefined, undefined read as the
    empty string: the first operand when it is truthy, else the second. *)
Definition js_or (a b : string) : string :=
  match a with
  | EmptyString => b
  | _ => a
  end.

Infix "<||>" := js_or (at level 51, right associativity).

(** Truthiness of a string-or-undefined value. *)
Definition truthy (a : string) : bool :=
  match a with
  | EmptyString => false
  | _ => true
  end.

(* ===================================================================== *)
(** ** Data model *)
(* ===================================================================== *)

(** A parsed CSV row: a JS object from header name to string value. A header
    the object does not carry reads as undefined, [get] reads it as the
    empty string (both are falsy). *)
Abbreviation RawRecord := (gmap string string).

Definition get (contact : RawRecord) (key : string) : string :=
  default "" (contact !! key).

(** The canonical contact built by formatContact. *)
Record Contact := mkContact {
  contact_id : string;
  contact_name : string;
  contact_email : string;
  contact_phone : string;
  contact_company : string;
  contact_address : string;
  contact_city : string;
  contact_state : string;
  contact_country : string;
  contact_zip : string;
  contact_balance : string;
  contact_original : RawRecord
}.

(** Errors carry their message; rejected promises and thrown exceptions are
    [Err]. *)
Abbreviation Error := string (only parsing).

Inductive Result (A : Type) : Type :=
| Ok (a : A)
| Err (e : Error).
Arguments Ok {A} a.
Arguments Err {A} e.

(* ===================================================================== *)
(** ** formatPhone and formatContact *)
(* ===================================================================== *)

(** [cleaned.replace(/(\d{3})(\d{3})(\d{4})/, '($1) $2-$3')] on a string of
    digits: the first ten digits are regrouped, what surrounds them stays. On
    fewer than ten digits the pattern does not match. *)
Definition regroup_digits (cleaned : string) : string :=
  let l := chars cleaned in
  if (List.length l <? 10)%nat then cleaned
  else str ("("%char :: take 3 l ++ ")"%char :: " "%char :: take 3 (drop 3 l)
             ++ "-"%char :: take 4 (drop 6 l) ++ drop 10 l).

Definition formatPhone (phone : string) : string :=
  if negb (truthy phone) then ""
  else
    let cleaned := strip_non_digits phone in
    if (String.length cleaned =? 10)%nat then regroup_digits cleaned
    else phone.

Definition getName (contact : RawRecord) : string :=
  get contact "Name" <||> get contact "name" <||> get contact "Company_name"
  <||> get contact "Company name" <||> get contact "company" <||> "Unknown Contact".

Definition getCompany (contact : RawRecord) : string :=
  get contact "Company_name" <||> get contact "Company name" <||> get contact "company"
  <||> get contact "organisation" <||> get contact "Company" <||> "".

Definition getEmail (contact : RawRecord) : string :=
  get contact "Email" <||> get contact "email" <||> get contact "Email_Address" <||> "".

Definition getPhone (contact : RawRecord) : string :=
  let phone := get contact "Phone" <||> get contact "phone" <||> get contact "mobile"
               <||> get contact "telephone" <||> "" in
  formatPhone phone.

Definition getAddress (contact : RawRecord) : string :=
  get contact "Street_Address" <||> get contact "Street Address"
  <||> get contact "address" <||> get contact "Address" <||> "".

Definition getCity (contact : RawRecord) : string :=
  get contact "City" <||> get contact "city" <||> "".

Definition getState (contact : RawRecord) : string :=
  get contact "State" <||> get contact "state" <||> get contact "province" <||> "".

Definition getCountry (contact : RawRecord) : string :=
  get contact "Country" <||> get contact "country" <||> "".

Definition getBalance (contact : RawRecord) : string :=
  get contact "Open_balance" <||> get contact "Open balance"
  <||> get contact "balance" <||> "".

Definition formatContact (contact : RawRecord) : Contact :=
  {| contact_id :=
       get contact "id"
       <||> underscore_each_space (getName contact +:+ "_" +:+ getEmail contact);
     contact_name := getName contact;
     contact_email := getEmail contact;
     contact_phone := getPhone contact;
     contact_company := getCompany contact;
     contact_address := getAddress contact;
     contact_city := getCity contact;
     contact_state := getState contact;
     contact_country := getCountry contact;
     contact_zip := get contact "Zip" <||> get contact "zip"
                    <||> get contact "postal_code" <||> "";
     contact_balance := getBalance contact;
     contact_original := contact |}.

(** The filter of getContacts: the contact carries some meaningful data. *)
Definition meaningful (c : Contact) : bool :=
  negb (String.eqb (contact_name c) "Unknown Contact")
  || truthy (contact_email c) || truthy (contact_phone c)
  || truthy (contact_company c).

(* ===================================================================== *)
(** ** Effects: errors and the log of calls into the outside world *)
(* ===================================================================== *)

(** The profiles Papa.parse is called with: the two of
    parseCSVWithFallbacks (header row, fields trimmed and blanks turned to
    underscores by transformHeader, comma delimiter, double quote; empty
    lines skipped greedily by the first and plainly by the second) and the
    one of loadLocalCSV. *)
Inductive PapaProfile := EnhancedStandard | Relaxed | LocalCSV.

Inductive Strategy :=
| PapaStrategy (profile : PapaProfile)
| Manual.

(** What the pipeline does to the outside world, in order. *)
Inductive Event :=
| EvFetch (url : string) (attempt : nat)
| EvAttemptFailed (attempt : nat) (message : Error)
| EvSleep (ms : Z)
| EvStorage (uri : string)
| EvDownload (url : string)
| EvAltFetch (url : string)
| EvProxyFetch (url : string)
| EvParse (strategy : Strategy)
| EvLoadLocal.

(** A computation that may throw and that logs its events. *)
Definition M (A : Type) : Type := (Result A * list Event)%type.

Definition ret {A} (a : A) : M A := (Ok a, []).
Definition throw {A} (e : Error) : M A := (Err e, []).
Definition emit (ev : Event) : M unit := (Ok tt, [ev]).

(** [m] with the events [t] logged before it. *)
Definition after {A} (t : list Event) (m : M A) : M A := (m.1, t ++ m.2).

Definition bind {A B} (m : M A) (k : A -> M B) : M B :=
  match m with
  | (Ok a, t) => after t (k a)
  | (Err e, t) => (Err e, t)
  end.

(** [try { m } catch (e) { handler e }] *)
Definition try_catch {A} (m : M A) (handler : Error -> M A) : M A :=
  match m with
  | (Ok a, t) => (Ok a, t)
  | (Err e, t) => after t (handler e)
  end.

Definition lift {A} (r : Result A) : M A := (r, []).

Notation "'do' x <- m 'in' k" := (bind m (fun x => k))
  (at level 10, x name, m at level 100, k at level 200).
Notation "'run' m 'in' k" := (bind m (fun _ => k))
  (at level 10, m at level 100, k at level 200).

(* ===================================================================== *)
(** ** manualCSVParse: the line-level parser *)
(* ===================================================================== *)

(** [values.push(current.trim().replace(/^Q|Q$/g, ''))], Q the double quote. *)
Definition finish_value (current : list ascii) : string :=
  strip_outer_quotes (trim (str current)).

(** The character loop of manualCSVParse over one line: a double quote
    toggles [inQuotes] (and is not kept), a comma outside quotes ends the
    value, any other character is appended to [current]. *)
Fixpoint tokenize_go (line : list ascii) (values : list string)
    (current : list ascii) (inQuotes : bool) : list string :=
  match line with
  | [] => values ++ [finish_value current]
  | c :: rest =>
      if bool_decide (c = char_quote) then tokenize_go rest values current (negb inQuotes)
      else if bool_decide (c = char_comma) && negb inQuotes
           then tokenize_go rest (values ++ [finish_value current]) [] inQuotes
           else tokenize_go rest values (current ++ [c]) inQuotes
  end.

Definition tokenize (line : string) : list string :=
  tokenize_go (chars line) [] [] false.

(** [for (k = 0; k < Math.min(headers.length, values.length); k++)
      contact[headers[k]] = values[k] || ''] *)
Fixpoint zip_record (headers values : list string) (contact : RawRecord) : RawRecord :=
  match headers, values with
  | h :: hs, v :: vs => zip_record hs vs (<[h := v <||> ""]> contact)
  | _, _ => contact
  end.

(** [contact.Name || contact.Email || contact.Phone || contact['Company_name']] *)
Definition manual_accepts (contact : RawRecord) : bool :=
  truthy (get contact "Name" <||> get contact "Email" <||> get contact "Phone"
          <||> get contact "Company_name").

(** The header row: [lines[0].trim().split(',')], each name with its double
    quotes removed, trimmed, and its blanks collapsed to underscores. *)
Definition manual_headers (lines : list string) : list string :=
  match lines with
  | [] => []
  | first :: _ =>
      map (fun h => collapse_spaces (trim (remove_quotes h)))
          (split char_comma (trim first))
  end.

(** One turn of the loop over the data lines: a blank line is skipped, the
    others are tokenized, zipped against the headers and kept when
    accepted. *)
Definition manual_line (headers : list string) (raw : string) : option RawRecord :=
  let line := trim raw in
  if negb (truthy line) then None
  else
    let contact := zip_record headers (tokenize line) ∅ in
    if manual_accepts contact then Some contact else None.

Definition manualCSVParse (csvText : string) : Result (list RawRecord) :=
  let lines := split char_nl csvText in
  if (List.length lines <? 2)%nat then Err "CSV has insufficient lines"
  else Ok (omap (manual_line (manual_headers lines)) (tail lines)).

(* ===================================================================== *)
(** ** The validation of parseCSVWithFallbacks *)
(* ===================================================================== *)

(** [contact.X && contact.X.trim() !== ''] *)
Definition has_field (contact : RawRecord) (key : string) : bool :=
  truthy (get contact key) && negb (String.eqb (trim (get contact key)) "").

(** The filter applied to the rows Papa.parse returns:
    [keys.length > 1 && (hasName || hasEmail || hasPhone || hasCompany)]. *)
Definition papa_valid (contact : RawRecord) : bool :=
  (1 <? size contact)%nat
  && (has_field contact "Name" || has_field contact "Email"
      || has_field contact "Phone" || has_field contact "Company_name").

(* ===================================================================== *)
(** ** The papaparse library *)
(* ===================================================================== *)

(** Papa.parse and Papa.unparse belong to the papaparse package, not to the
    app. The pipeline below takes Papa.parse as a parameter: on a string it
    either calls [complete] with its results or fails (an exception in the
    promise executor, or the [error] callback), which rejects the promise. *)
Record PapaResults := mkResults {
  data : list RawRecord;
  errors : list string
}.

Inductive PapaOutcome :=
| PapaComplete (results : PapaResults)
| PapaFailure (e : Error).

(** [transformHeader: (header) => header.trim().replace(/\s+/g, '_')] *)
Definition transformHeader (header : string) : string :=
  collapse_spaces (trim header).

(** *** A reference parser

    A plain reading of the CSV grammar in header mode, used to run the
    pipeline on concrete texts: fields are separated by commas and rows by
    line feeds (a carriage return outside quotes is dropped), a field that
    starts with a double quote runs to its closing quote, a doubled quote
    inside it standing for one; the first row not skipped is the header row;
    a row is zipped against the headers, values beyond the last header are
    gathered under __parsed_extra.

    It is not the library. It is meant for texts whose rows end in LF or in
    CR LF and whose first row is not blank, and it is run below on such
    texts only (the bundled sample, the exported text of a contact, an HTML
    page, a single line). On other texts the library reads otherwise: it
    detects the line ends, so that a text whose rows end in CR alone is split
    at them, and a blank first row is its header row. Every property of the
    pipeline is stated over an arbitrary Papa.parse. *)
Inductive RefState := InField | InQuoted | AfterQuote.

Fixpoint ref_rows (l : list ascii) (st : RefState) (field : list ascii)
    (row : list string) : list (list string) :=
  match l with
  | [] => [row ++ [str field]]
  | c :: rest =>
      match st with
      | InQuoted =>
          if bool_decide (c = char_quote) then ref_rows rest AfterQuote field row
          else ref_rows rest InQuoted (field ++ [c]) row
      | _ =>
          if bool_decide (c = char_quote) then
            match st, field with
            | AfterQuote, _ => ref_rows rest InQuoted (field ++ [c]) row
            | _, [] => ref_rows rest InQuoted [] row
            | _, _ => ref_rows rest InField (field ++ [c]) row
            end
          else if bool_decide (c = char_comma)
          then ref_rows rest InField [] (row ++ [str field])
          else if bool_decide (c = char_nl)
          then (row ++ [str field]) :: ref_rows rest InField [] []
          else if bool_decide (c = char_cr) then ref_rows rest st field row
          else ref_rows rest InField (field ++ [c]) row
      end
  end.

(** skipEmptyLines: 'greedy' skips a row whose fields are all blank, true
    skips a row that is one empty field. *)
Definition ref_skipped (profile : PapaProfile) (row : list string) : bool :=
  match profile with
  | EnhancedStandard => forallb (fun f => negb (truthy (trim f))) row
  | _ => match row with
         | [f] => negb (truthy f)
         | _ => false
         end
  end.

Fixpoint ref_record (headers values : list string) (contact : RawRecord) : RawRecord :=
  match headers, values with
  | h :: hs, v :: vs => ref_record hs vs (<[h := v]> contact)
  | [], v :: vs => <["__parsed_extra" := join "," (v :: vs)]> contact
  | _, [] => contact
  end.

Definition ref_row_error (headers row : list string) : option string :=
  if (List.length row <? List.length headers)%nat then Some "TooFewFields"
  else if (List.length headers <? List.length row)%nat then Some "TooManyFields"
  else None.

Definition papa_reference (profile : PapaProfile) (text : string) : PapaOutcome :=
  match filter (fun row => ref_skipped profile row = false)
               (ref_rows (chars text) InField [] []) with
  | [] => PapaComplete (mkResults [] [])
  | header :: rows =>
      let headers := map transformHeader header in
      PapaComplete
        (mkResults (map (fun row => ref_record headers row ∅) rows)
                   (omap (ref_row_error headers) rows))
  end.

(** *** Papa.unparse with a list of columns

    The header row, then one row per object, joined by CR LF; a field is
    quoted when it holds a delimiter, a quote, a line break, or starts or
    ends with a space, and its quotes are doubled. An empty array is
    serialized without its columns: the text is empty, with no header
    row. *)
Definition needs_quotes (s : string) : bool :=
  let l := chars s in
  existsb (fun c => bool_decide (c = char_cr) || bool_decide (c = char_nl)
                    || bool_decide (c = char_quote) || bool_decide (c = char_comma)) l
  || bool_decide (head l = Some " "%char) || bool_decide (last l = Some " "%char).

Definition escape_quotes (s : string) : string :=
  str (flat_map (fun c => if bool_decide (c = char_quote) then [c; c] else [c]) (chars s)).

Definition safe (s : string) : string :=
  if needs_quotes s
  then String char_quote (escape_quotes s +:+ String char_quote "")
  else s.

Definition crlf : string := String char_cr (String char_nl "").

Definition Papa_unparse {A} (columns : list string) (field : A -> string -> string)
    (rows : list A) : string :=
  let header := join "," (map safe columns) in
  match rows with
  | [] => ""
  | _ =>
      header +:+ crlf
      +:+ join crlf (map (fun row => join "," (map (fun c => safe (field row c)) columns)) rows)
  end.

(* ===================================================================== *)
(** ** exportContacts *)
(* ===================================================================== *)

Definition export_columns : list string :=
  ["name"; "company"; "email"; "phone"; "address"; "city"; "state"; "country";
   "zip"; "balance"].

(** [contact[column]] for the properties of a formatted contact that hold a
    string. *)
Definition contact_field (c : Contact) (column : string) : string :=
  if String.eqb column "id" then contact_id c
  else if String.eqb column "name" then contact_name c
  else if String.eqb column "email" then contact_email c
  else if String.eqb column "phone" then contact_phone c
  else if String.eqb column "company" then contact_company c
  else if String.eqb column "address" then contact_address c
  else if String.eqb column "city" then contact_city c
  else if String.eqb column "state" then contact_state c
  else if String.eqb column "country" then contact_country c
  else if String.eqb column "zip" then contact_zip c
  else if String.eqb column "balance" then contact_balance c
  else "".

(** The CSV text exportContacts writes to the export file:
    [Papa.unparse(contacts, { header: true, columns: [...] })]. *)
Definition exportContacts_csv (contacts : list Contact) : string :=
  Papa_unparse export_columns contact_field contacts.

(** The row of the exported table that carries [c], as a header-mode parser
    keys it: the export's column names, each with the contact's value. *)
Definition exported_row (c : Contact) : RawRecord :=
  list_to_map (map (fun column => (column, contact_field c column)) export_columns).

(* ===================================================================== *)
(** ** The outside world *)
(* ===================================================================== *)

(** What [fetch] answers: a rejection (network failure, or the abort of the
    15 second timeout), or a response with its status and the outcome of
    reading its body ([response.text()], or [(await response.json()).contents]
    for the proxy). *)
Inductive Response :=
| NetworkFailure (e : Error)
| HttpResponse (status : nat) (statusText : string) (body : Result string).

(** [response.ok] *)
Definition response_ok (status : nat) : bool :=
  (200 <=? status)%nat && (status <=? 299)%nat.

(** The answers of expo-file-system to the calls of downloadAndCacheCSV, in
    the order it makes them. *)
Record FileSystemWorld := mkFileSystem {
  fs_info_exists : Result bool;        (* getInfoAsync(cacheInfoUri).exists *)
  fs_cache_age : Result (option Z);    (* Date.now() - info.timestamp, None when not a number *)
  fs_cached_data : Result string;      (* readAsStringAsync(cacheFileUri) of the fresh cache *)
  fs_download : Result nat;            (* downloadAsync(...).status *)
  fs_write_info : Result unit;         (* writeAsStringAsync(cacheInfoUri, ...) *)
  fs_downloaded_data : Result string;  (* readAsStringAsync(cacheFileUri) after the download *)
  fs_file_exists : Result bool;        (* getInfoAsync(cacheFileUri).exists, in the handler *)
  fs_stale_data : Result string        (* readAsStringAsync(cacheFileUri), in the handler *)
}.

Record World := mkWorld {
  w_fetch : string -> nat -> Response;  (* the fetch of fetchCSVFromURL, by url and attempt *)
  w_fs : FileSystemWorld;
  w_alt : Response;                     (* the fetch with the alternative headers *)
  w_proxy : Response;                   (* the fetch through the CORS proxy *)
  w_unexpected : option Error           (* an exception raised in the try block of
                                           getContacts outside its inner handlers,
                                           while the rows are formatted *)
}.

Record Config := mkConfig {
  csvUrl : string;
  useLocalCSV : bool
}.

(** config.js *)
Definition app_config : Config :=
  {| csvUrl := "http://support.ctecg.co.za/files/Customers.csv";
     useLocalCSV := false |}.

(* ===================================================================== *)
(** ** downloadAndCacheCSV *)
(* ===================================================================== *)

Definition cacheFileUri : string := "contacts_cache.csv".
Definition cacheInfoUri : string := "contacts_cache_info.json".

(** A call into the outside world: its event, then its outcome. *)
Definition call {A} (ev : Event) (outcome : Result A) : M A := after [ev] (lift outcome).

Definition downloadAndCacheCSV (url : string) (fs : FileSystemWorld) : M string :=
  try_catch
    (do cacheInfo <- call (EvStorage cacheInfoUri) (fs_info_exists fs) in
     do recent <-
       (if cacheInfo : bool then
          do cacheAge <- call (EvStorage cacheInfoUri) (fs_cache_age fs) in
          match cacheAge with
          | Some age =>
              if age <? 600000 then
                do cachedData <- call (EvStorage cacheFileUri) (fs_cached_data fs) in
                ret (Some cachedData)
              else ret None
          | None => ret None
          end
        else ret None) in
     match recent with
     | Some cachedData => ret cachedData
     | None =>
         do status <- call (EvDownload url) (fs_download fs) in
         if (status =? 200)%nat then
           run call (EvStorage cacheInfoUri) (fs_write_info fs) in
           call (EvStorage cacheFileUri) (fs_downloaded_data fs)
         else throw ("Download failed with status " +:+ pretty status)
     end)
    (fun error =>
       do cacheFile <- call (EvStorage cacheFileUri) (fs_file_exists fs) in
       if cacheFile : bool then call (EvStorage cacheFileUri) (fs_stale_data fs)
       else throw error).

(* ===================================================================== *)
(** ** The bundled sample data *)
(* ===================================================================== *)

Definition localCSVData : string :=
  join (String char_nl "")
    ["Name,Company_name,Email,Phone,City,Country";
     "John Doe,Tech Corp,john.doe@email.com,+1-555-0123,New York,USA";
     "Jane Smith,Design Studio,jane.smith@email.com,+1-555-0124,Los Angeles,USA";
     "Mike Johnson,Marketing Inc,mike.johnson@email.com,+1-555-0125,Chicago,USA";
     "Sarah Wilson,Sales Co,sarah.wilson@email.com,+1-555-0126,Miami,USA";
     "David Brown,Consulting Ltd,david.brown@email.com,+1-555-0127,Seattle,USA"].

Definition local_row (name company email phone city country : string) : RawRecord :=
  list_to_map [("Name", name); ("Company_name", company); ("Email", email);
               ("Phone", phone); ("City", city); ("Country", country)].

(** The rows of [localCSVData] in header mode. *)
Definition localRows : list RawRecord :=
  [local_row "John Doe" "Tech Corp" "john.doe@email.com" "+1-555-0123" "New York" "USA";
   local_row "Jane Smith" "Design Studio" "jane.smith@email.com" "+1-555-0124" "Los Angeles" "USA";
   local_row "Mike Johnson" "Marketing Inc" "mike.johnson@email.com" "+1-555-0125" "Chicago" "USA";
   local_row "Sarah Wilson" "Sales Co" "sarah.wilson@email.com" "+1-555-0126" "Miami" "USA";
   local_row "David Brown" "Consulting Ltd" "david.brown@email.com" "+1-555-0127" "Seattle" "USA"].

(* ===================================================================== *)
(** ** The memory snapshot *)
(* ===================================================================== *)

(** A JS array of contacts: its contents and its identity. Two references
    are to the same array when the identities agree; the service never
    mutates an array once built. *)
Record ContactArray := mkArray {
  array_id : nat;
  array_items : list Contact
}.

(** The module-level variables of csvService. [allocated] is not one of
    them: it counts the arrays built so far and gives the next array its
    identity. *)
Record State := mkState {
  cachedContacts : option ContactArray;
  lastFetchTime : Z;
  allocated : nat
}.

Definition initial_state : State :=
  {| cachedContacts := None; lastFetchTime := 0; allocated := 0 |}.

Definition CACHE_DURATION : Z := 5 * 60 * 1000.

Definition clearContactsCache (st : State) : State :=
  {| cachedContacts := None; lastFetchTime := 0; allocated := allocated st |}.

Definition maxAttempts : nat := 3.

(** [retryDelay = attempt * 1000] *)
Definition retryDelay (attempt : nat) : Z := Z.of_nat attempt * 1000.

(* ===================================================================== *)
(** ** The pipeline, over any behaviour of Papa.parse *)
(* ===================================================================== *)

Section Pipeline.

Variable Papa_parse : PapaProfile -> string -> PapaOutcome.
Variable config : Config.

(** *** parseCSVWithFallbacks *)

Definition strategies : list Strategy :=
  [PapaStrategy EnhancedStandard; PapaStrategy Relaxed; Manual].

(** The body of the loop for one strategy: the manual parser, or Papa.parse
    whose [complete] callback filters the rows and rejects when none is
    left. *)
Definition run_strategy (strategy : Strategy) (csvText : string) : M (list RawRecord) :=
  run emit (EvParse strategy) in
  match strategy with
  | Manual => lift (manualCSVParse csvText)
  | PapaStrategy profile =>
      match Papa_parse profile csvText with
      | PapaComplete results =>
          let validContacts := filter (fun c => papa_valid c = true) (data results) in
          if (List.length validContacts =? 0)%nat
          then throw "No valid contacts found after parsing"
          else ret validContacts
      | PapaFailure e => throw e
      end
  end.

(** [for (const strategy of strategies) { try { ... return ... } catch { continue } }
     throw new Error('All parsing strategies failed')] *)
Fixpoint try_strategies (todo : list Strategy) (csvText : string) : M (list RawRecord) :=
  match todo with
  | [] => throw "All parsing strategies failed"
  | strategy :: rest =>
      try_catch (run_strategy strategy csvText) (fun _ => try_strategies rest csvText)
  end.

Definition parseCSVWithFallbacks (csvText : string) : M (list RawRecord) :=
  try_strategies strategies csvText.

(** *** loadLocalCSV

    The promise resolves with the rows Papa.parse hands to [complete]; a
    failure of Papa.parse is read as its rejection. *)
Definition loadLocalCSV : M (list RawRecord) :=
  run emit EvLoadLocal in
  match Papa_parse LocalCSV localCSVData with
  | PapaComplete results => ret (data results)
  | PapaFailure e => throw e
  end.

(** *** fetchCSVFromURL *)

(** The try block up to the text of the response. *)
Definition fetch_text (w : World) (url : string) (attempt : nat) : M string :=
  run emit (EvFetch url attempt) in
  match w_fetch w url attempt with
  | NetworkFailure e => throw e
  | HttpResponse status statusText body =>
      if negb (response_ok status)
      then throw ("HTTP " +:+ pretty status +:+ ": " +:+ statusText)
      else
        do csvText <- lift body in
        if (String.length csvText <? 100)%nat
        then throw "CSV file appears to be empty or too small"
        else ret csvText
  end.

(** The promise of parseCSVWithFallbacks is returned without being awaited,
    so its rejection is not caught by the handler: only a failure of the
    fetch is retried. *)
Equations fetchCSVFromURL (w : World) (url : string) (attempt : nat) : M (list RawRecord)
  by wf (maxAttempts - attempt)%nat lt :=
fetchCSVFromURL w url attempt with fetch_text w url attempt := {
  | (Ok csvText, t) => after t (parseCSVWithFallbacks csvText)
  | (Err error, t) with lt_dec attempt maxAttempts := {
      | left _ =>
          after (t ++ [EvAttemptFailed attempt error; EvSleep (retryDelay attempt)])
                (fetchCSVFromURL w url (S attempt))
      | right _ =>
          (Err ("Failed to fetch CSV after " +:+ pretty maxAttempts +:+ " attempts: " +:+ error),
           t ++ [EvAttemptFailed attempt error]) } }.
Next Obligation. unfold maxAttempts in *. lia. Qed.

(** *** getContacts *)

(** Approach 2: the fetch with different headers. *)
Definition alternativeFetch (w : World) : M (list RawRecord) :=
  run emit (EvAltFetch (csvUrl config)) in
  match w_alt w with
  | NetworkFailure e => throw e
  | HttpResponse status _ body =>
      if response_ok status then
        do csvText <- lift body in parseCSVWithFallbacks csvText
      else throw ("Alternative fetch failed: " +:+ pretty status)
  end.

(** Approach 3: the fetch through the CORS proxy. *)
Definition proxyFetch (w : World) : M (list RawRecord) :=
  run emit (EvProxyFetch (csvUrl config)) in
  match w_proxy w with
  | NetworkFailure e => throw e
  | HttpResponse status _ body =>
      if response_ok status then
        do contents <- lift body in parseCSVWithFallbacks contents
      else throw "CORS proxy failed"
  end.

(** The acquisition ladder: the rows [contacts] holds when the formatting
    starts. *)
Definition acquire (w : World) : M (list RawRecord) :=
  if useLocalCSV config then loadLocalCSV
  else
    try_catch (fetchCSVFromURL w (csvUrl config) 1) (fun primaryError =>
    try_catch (do csvText <- downloadAndCacheCSV (csvUrl config) (w_fs w) in
               parseCSVWithFallbacks csvText) (fun cacheError =>
    try_catch (alternativeFetch w) (fun altError =>
    try_catch (proxyFetch w) (fun proxyError =>
    loadLocalCSV)))).

(** The try block of getContacts up to [formattedContacts]. *)
Definition try_block (w : World) : M (list Contact) :=
  do contacts <- acquire w in
  match w_unexpected w with
  | Some e => throw e
  | None => ret (filter (fun c => meaningful c = true) (map formatContact contacts))
  end.

(** The catch block of getContacts. *)
Definition catch_block (st : State) : M ContactArray * State :=
  match cachedContacts st with
  | Some cached => (ret cached, st)
  | None =>
      match loadLocalCSV with
      | (Ok fallbackContacts, t) =>
          ((Ok (mkArray (allocated st) (map formatContact fallbackContacts)), t),
           mkState None (lastFetchTime st) (S (allocated st)))
      | (Err e, t) => ((Err e, t), st)
      end
  end.

(** [cachedContacts && (now - lastFetchTime) < CACHE_DURATION] with
    [!forceRefresh]: the snapshot to return directly, if any. *)
Definition cache_hit (now : Z) (forceRefresh : bool) (st : State) : option ContactArray :=
  match cachedContacts st with
  | Some cached =>
      if negb forceRefresh && (now - lastFetchTime st <? CACHE_DURATION)
      then Some cached else None
  | None => None
  end.

Definition getContacts (w : World) (now : Z) (forceRefresh : bool) (st : State)
    : M ContactArray * State :=
  match cache_hit now forceRefresh st with
  | Some cached => (ret cached, st)
  | None =>
      match try_block w with
      | (Ok formattedContacts, t) =>
          let result := mkArray (allocated st) formattedContacts in
          ((Ok result, t), mkState (Some result) now (S (allocated st)))
      | (Err error, t) =>
          let '(answer, st') := catch_block st in (after t answer, st')
      end
  end.

End Pipeline.

(* ===================================================================== *)
(** ** The device: exportService and the maintenance of the file cache *)
(* ===================================================================== *)

(** The calls exportContacts, exportCacheFile and clearCache make into
    expo-file-system and expo-sharing, in order. *)
Inductive DeviceEvent :=
| DevWrite (uri contents : string)
| DevIsAvailable
| DevShare (uri dialogTitle : string)
| DevGetInfo (uri : string)
| DevDelete (uri : string).

(** The answers of the device to these calls. *)
Record Device := mkDevice {
  documentDirectory : string;     (* FileSystem.documentDirectory *)
  dev_write : Result unit;        (* writeAsStringAsync(fileUri, csv, ...) *)
  dev_available : Result bool;    (* what the promise of Sharing.isAvailableAsync() settles to *)
  dev_share : Result unit;        (* Sharing.shareAsync(uri, ...) *)
  dev_cache_exists : Result bool; (* getInfoAsync(cacheFileUri).exists *)
  dev_delete_file : Result unit;  (* deleteAsync(cacheFileUri, { idempotent: true }) *)
  dev_delete_info : Result unit   (* deleteAsync(cacheInfoUri, { idempotent: true }) *)
}.

(** A computation on the device: it may throw, and it logs its calls. *)
Definition Dev (A : Type) : Type := (Result A * list DeviceEvent)%type.

Definition dev_ret {A} (a : A) : Dev A := (Ok a, []).
Definition dev_throw {A} (e : Error) : Dev A := (Err e, []).
Definition dev_call {A} (ev : DeviceEvent) (outcome : Result A) : Dev A := (outcome, [ev]).

Definition dev_bind {A B} (m : Dev A) (k : A -> Dev B) : Dev B :=
  match m with
  | (Ok a, t) => ((k a).1, t ++ (k a).2)
  | (Err e, t) => (Err e, t)
  end.

Definition dev_try_catch {A} (m : Dev A) (handler : Error -> Dev A) : Dev A :=
  match m with
  | (Ok a, t) => (Ok a, t)
  | (Err e, t) => ((handler e).1, t ++ (handler e).2)
  end.

Notation "'await' x <- m 'in' k" := (dev_bind m (fun x => k))
  (at level 10, x name, m at level 100, k at level 200).
Notation "'await_' m 'in' k" := (dev_bind m (fun _ => k))
  (at level 10, m at level 100, k at level 200).

(** What exportContacts resolves with. *)
Record ExportResult := mkExportResult {
  success : bool;
  message : string
}.

(** The text goes to the file first, then the share sheet is opened when
    sharing is available; any failure is reported in the result. *)
Definition exportContacts (d : Device) (contacts : list Contact) (filename : string)
    : Dev ExportResult :=
  dev_try_catch
    (let csv := exportContacts_csv contacts in
     let fileUri := documentDirectory d +:+ filename in
     await_ dev_call (DevWrite fileUri csv) (dev_write d) in
     await available <- dev_call DevIsAvailable (dev_available d) in
     await_ (if available : bool
             then dev_call (DevShare fileUri "Export Contacts") (dev_share d)
             else dev_throw "Sharing is not available on this device") in
     dev_ret {| success := true; message := "Contacts exported successfully!" |})
    (fun error => dev_ret {| success := false; message := error |}).

(** [today] is [new Date().toISOString().split('T')[0]]. The search query
    is not read. *)
Definition exportFilteredContacts (d : Device) (today : string) (contacts : list Contact)
    (searchQuery filterBy : string) : Dev ExportResult :=
  let filename := "contacts_" +:+ filterBy +:+ "_" +:+ today +:+ ".csv" in
  exportContacts d contacts filename.

(** The promise of Sharing.isAvailableAsync() is not awaited: the call is
    made when the file exists, and the condition reads the promise, which
    is truthy whatever it settles to. The handler logs and rethrows. *)
Definition exportCacheFile (d : Device) : Dev unit :=
  let uri := documentDirectory d +:+ cacheFileUri in
  dev_try_catch
    (await cacheFile <- dev_call (DevGetInfo uri) (dev_cache_exists d) in
     if cacheFile : bool
     then await_ dev_call DevIsAvailable (Ok tt) in
          dev_call (DevShare uri "Export Cached CSV Data") (dev_share d)
     else dev_throw "Cache file not found or sharing not available")
    (fun error => dev_throw error).

(** The handler of clearCache warns and returns. *)
Definition clearCache (d : Device) : Dev unit :=
  dev_try_catch
    (await_ dev_call (DevDelete (documentDirectory d +:+ cacheFileUri)) (dev_delete_file d) in
     dev_call (DevDelete (documentDirectory d +:+ cacheInfoUri)) (dev_delete_info d))
    (fun error => dev_ret tt).

(* ===================================================================== *)
(** ** The screen: App.js *)
(* ===================================================================== *)

(** [s.toLowerCase()] on code units below 256: the letters A to Z and the
    capital letters from 192 to 222, the multiplication sign 215 apart, move
    up by 32; every other character stays. *)
Definition toLowerCase_char (c : ascii) : ascii :=
  let n := nat_of_ascii c in
  if ((65 <=? n)%nat && (n <=? 90)%nat)
     || ((192 <=? n)%nat && (n <=? 222)%nat && negb (n =? 215)%nat)
  then ascii_of_nat (n + 32) else c.

Definition toLowerCase (s : string) : string := str (map toLowerCase_char (chars s)).

(** [s.includes(query)] *)
Fixpoint starts_with (query l : list ascii) : bool :=
  match query, l with
  | [], _ => true
  | c :: query', d :: l' => bool_decide (c = d) && starts_with query' l'
  | _ :: _, [] => false
  end.

Fixpoint includes_go (query l : list ascii) : bool :=
  starts_with query l
  || match l with
     | [] => false
     | _ :: r => includes_go query r
     end.

Definition includes (s query : string) : bool := includes_go (chars query) (chars s).

(** The predicate of the search filter: the query, already in lower case,
    is looked for in the name, email, company, city and country in lower
    case, and in the phone as it is. *)
Definition matches_query (query : string) (contact : Contact) : bool :=
  includes (toLowerCase (contact_name contact)) query
  || includes (toLowerCase (contact_email contact)) query
  || includes (toLowerCase (contact_company contact)) query
  || includes (contact_phone contact) query
  || includes (toLowerCase (contact_city contact)) query
  || includes (toLowerCase (contact_country contact)) query.

(** filterContacts: the list it hands to setFilteredContacts. *)
Definition filterContacts (contacts : list Contact) (searchQuery filterBy : string)
    : list Contact :=
  let filtered :=
    if truthy (trim searchQuery)
    then let query := toLowerCase searchQuery in
         filter (fun contact => matches_query query contact = true) contacts
    else contacts in
  if String.eqb filterBy "company"
  then filter (fun contact => truthy (contact_company contact) = true) filtered
  else if String.eqb filterBy "location"
  then filter (fun contact => truthy (contact_city contact <||> contact_country contact) = true)
              filtered
  else filtered.

(** The state updates and alerts of the screen, in the order the handlers
    issue them. *)
Inductive Update :=
| SetLoading (loading : bool)
| SetRefreshing (refreshing : bool)
| SetError (error : option string)
| SetConnectionStatus (status : string)
| SetContacts (data : ContactArray)
| SetFilteredContacts (filtered : list Contact)
| SetRetryCount (count : nat)
| IncrementRetryCount
| ShowAlert (title : string) (buttons : list string).

(** What a handler of the screen does: its updates, the events of the
    service underneath, and the state of the service afterwards. *)
Definition Handled : Type := ((list Update * list Event) * State)%type.

Section Screen.

Variable Papa_parse : PapaProfile -> string -> PapaOutcome.

(** loadContacts, in a render whose search query and category are
    [searchQuery] and [filterBy]; [config] is the configuration object as it
    is when the call is made. *)
Definition loadContacts (config : Config) (w : World) (now : Z)
    (searchQuery filterBy : string) (silent forceRefresh : bool) (st : State) : Handled :=
  let before :=
    if silent then []
    else [SetLoading true; SetError None; SetConnectionStatus "connecting"] in
  let '((outcome, t), st') := getContacts Papa_parse config w now forceRefresh st in
  let body :=
    match outcome with
    | Ok data =>
        [SetContacts data; SetConnectionStatus "connected"; SetRetryCount 0]
        ++ (if (0 <? List.length (array_items data))%nat
            then
              let filtered := array_items data in
              let filtered :=
                if truthy (trim searchQuery)
                then let query := toLowerCase searchQuery in
                     filter (fun contact =>
                               (includes (toLowerCase (contact_name contact)) query
                                || includes (toLowerCase (contact_email contact)) query
                                || includes (toLowerCase (contact_company contact)) query
                                || includes (contact_phone contact) query
                                || includes (toLowerCase (contact_city contact)) query
                                || includes (toLowerCase (contact_country contact)) query)
                               = true) filtered
                else filtered in
              let filtered :=
                if String.eqb filterBy "company"
                then filter (fun contact => truthy (contact_company contact) = true) filtered
                else if String.eqb filterBy "location"
                then filter (fun contact =>
                               truthy (contact_city contact <||> contact_country contact) = true)
                            filtered
                else filtered in
              [SetFilteredContacts filtered]
            else [])
        ++ (if (List.length (array_items data) =? 0)%nat
            then [SetError (Some "No contacts found. Please check the CSV file.");
                  SetConnectionStatus "no-data"]
            else [])
    | Err err =>
        let errorMessage := "Failed to load contacts: " +:+ err in
        [SetError (Some errorMessage); SetConnectionStatus "error"]
        ++ (if silent then []
            else if includes err "fetch"
            then [ShowAlert "Connection Error" ["Retry"; "Use Offline Mode"; "Cancel"]]
            else if includes err "parsing"
            then [ShowAlert "Data Format Error" ["Retry"; "Use Offline Mode"; "Cancel"]]
            else [ShowAlert "Error" ["Retry"; "Cancel"]])
    end in
  ((before ++ body ++ [SetLoading false; SetRefreshing false], t), st').

(** switchToOfflineMode sets config.useLocalCSV and reloads: the
    configuration object it leaves comes with what it did. *)
Definition switchToOfflineMode (config : Config) (w : World) (now : Z)
    (searchQuery filterBy : string) (st : State) : Handled * Config :=
  let config' := {| csvUrl := csvUrl config; useLocalCSV := true |} in
  let '((updates, t), st') := loadContacts config' w now searchQuery filterBy false true st in
  (((SetConnectionStatus "offline" :: updates, t), st'), config').


End Screen.

(** The colours of the avatars, and config.colors.accent. *)
Definition colors : list string :=
  ["#FF6B6B"; "#4ECDC4"; "#45B7D1"; "#96CEB4"; "#FFEAA7"; "#DDA0DD"; "#98D8C8"].

Definition accent : string := "#75A206".

(** getContactColor: [colors[name.charCodeAt(0) % colors.length]], which is
    undefined ([None]) when the index is not one of the array. *)
Definition getContactColor (name : string) : option string :=
  match name with
  | EmptyString => Some accent
  | String c _ => colors !! (nat_of_ascii c mod List.length colors)%nat
  end.

(* ===================================================================== *)
(** ** Predicates of the properties, and example data *)
(* ===================================================================== *)

(** The display format (XXX) XXX-XXXX, X a digit. *)
Definition display_format (s : string) : bool :=
  match chars s with
  | [o; a1; a2; a3; c; sp; b1; b2; b3; d; c1; c2; c3; c4] =>
      bool_decide (o = "("%char) && is_digit a1 && is_digit a2 && is_digit a3
      && bool_decide (c = ")"%char) && bool_decide (sp = " "%char)
      && is_digit b1 && is_digit b2 && is_digit b3
      && bool_decide (d = "-"%char)
      && is_digit c1 && is_digit c2 && is_digit c3 && is_digit c4
  | _ => false
  end.

(** A record is the zip of [values] against [headers]: a header within the
    first [min (length headers) (length values)] positions carries the value
    at its (last such) position, and a header that does not stand within
    these positions is not a key of the record. *)
Definition zipped (headers values : list string) (r : RawRecord) : Prop :=
  (forall k h v, headers !! k = Some h -> values !! k = Some v ->
     (forall j, (k < j)%nat -> (j < List.length values)%nat -> headers !! j <> Some h) ->
     r !! h = Some v)
  /\ (forall h, h ∉ take (List.length values) headers -> r !! h = None).

Definition short_line_text : string :=
  "Name,Email,Phone" +:+ String char_nl "John Doe".

Definition identifying_headers : list string := ["Name"; "Email"; "Phone"; "Company_name"].

(** The number of fields of a record that hold a non-empty value. *)
Definition populated_fields (r : RawRecord) : nat :=
  List.length (filter (fun kv => truthy kv.2 = true) (map_to_list r)).

(** The acceptance test as the specification words it: more than one
    populated field, and an identifying field (name, email, phone or
    company) under any of the aliases the normalizer knows. *)
Definition claimed_acceptance (r : RawRecord) : bool :=
  (1 <? populated_fields r)%nat
  && (truthy (get r "Name" <||> get r "name")
      || truthy (getEmail r)
      || truthy (get r "Phone" <||> get r "phone" <||> get r "mobile" <||> get r "telephone")
      || truthy (getCompany r)).

Definition lowercase_record : RawRecord :=
  {[ "name" := "John Doe"; "email" := "john@x.com" ]}.

Definition one_value_record : RawRecord :=
  {[ "Name" := "John Doe"; "Email" := "" ]}.

(** The rows of Papa.parse that pass the validation, none when it fails. *)
Definition accepted_rows (Papa_parse : PapaProfile -> string -> PapaOutcome)
    (profile : PapaProfile) (csvText : string) : list RawRecord :=
  match Papa_parse profile csvText with
  | PapaComplete results => filter (fun c => papa_valid c = true) (data results)
  | PapaFailure _ => []
  end.

(** The page a server or a captive portal answers in place of the CSV file:
    four lines, more than a hundred characters, status 200. *)
Definition error_page : string :=
  join (String char_nl "")
    ["<!DOCTYPE html>";
     "<html><head><title>503 Service Unavailable</title></head>";
     "<body><h1>Service Unavailable</h1><p>The server is temporarily unable to service your request.</p></body>";
     "</html>"].

Definition fs_unavailable : FileSystemWorld :=
  mkFileSystem (Err "storage unavailable") (Err "storage unavailable")
               (Err "storage unavailable") (Err "storage unavailable")
               (Err "storage unavailable") (Err "storage unavailable")
               (Err "storage unavailable") (Err "storage unavailable").

(** A world whose server answers every request with [error_page]. *)
Definition world_error_page : World :=
  mkWorld (fun _ _ => HttpResponse 200 "OK" (Ok error_page)) fs_unavailable
          (HttpResponse 200 "OK" (Ok error_page))
          (HttpResponse 200 "OK" (Ok error_page)) None.

(** Readings of a log: the attempts fetched, the delays slept, in order, and
    the total time slept. *)
Definition fetched_attempts (t : list Event) : list nat :=
  omap (fun ev => match ev with EvFetch _ attempt => Some attempt | _ => None end) t.

Definition delays (t : list Event) : list Z :=
  omap (fun ev => match ev with EvSleep ms => Some ms | _ => None end) t.



Definition world_500 : World :=
  mkWorld (fun _ _ => HttpResponse 500 "Internal Server Error" (Ok ""))
          fs_unavailable (NetworkFailure "Network request failed")
          (NetworkFailure "Network request failed") None.

(** Papa.parse reads the bundled sample into its five rows. *)
Definition papa_parses_sample (Papa_parse : PapaProfile -> string -> PapaOutcome) : Prop :=
  exists results,
    Papa_parse LocalCSV localCSVData = PapaComplete results /\ data results = localRows.

(** The validity invariant of a contact: some meaningful data. *)
Definition valid_contact (c : Contact) : Prop :=
  contact_name c <> "Unknown Contact" \/ contact_email c <> ""
  \/ contact_phone c <> "" \/ contact_company c <> "".

(** The headers formatContact reads the name, the company, the email and the
    phone from. *)
Definition identifying_aliases : list string :=
  ["Name"; "name"; "Company_name"; "Company name"; "company"; "organisation"; "Company";
   "Email"; "email"; "Email_Address"; "Phone"; "phone"; "mobile"; "telephone"].

(** A raw record with no identifying field populated. *)
Definition unidentified (raw : RawRecord) : Prop :=
  Forall (fun k => get raw k = "") identifying_aliases.

(** The calls a client makes on the service, and the state they lead to
    from the state the module is loaded in. Each call to getContacts comes
    with the configuration it reads (the app switches config.useLocalCSV at
    run time), the world it meets and the time on the clock. *)
Inductive Call :=
| CallGetContacts (config : Config) (w : World) (now : Z) (forceRefresh : bool)
| CallClearContactsCache.

Definition step (Papa_parse : PapaProfile -> string -> PapaOutcome)
    (st : State) (c : Call) : State :=
  match c with
  | CallGetContacts config w now forceRefresh =>
      (getContacts Papa_parse config w now forceRefresh st).2
  | CallClearContactsCache => clearContactsCache st
  end.

Definition replay (Papa_parse : PapaProfile -> string -> PapaOutcome)
    (calls : list Call) : State :=
  foldl (step Papa_parse) initial_state calls.

(** Successive calls getContacts(false), each with its configuration, in its
    world, at its time: the answers and the final state. *)
Fixpoint get_each (Papa_parse : PapaProfile -> string -> PapaOutcome)
    (later : list (Config * World * Z)) (st : State) : list (M ContactArray) * State :=
  match later with
  | [] => ([], st)
  | (config, w, now) :: rest =>
      let '(answer, st1) := getContacts Papa_parse config w now false st in
      let '(answers, st2) := get_each Papa_parse rest st1 in
      (answer :: answers, st2)
  end.

(** A world in which an exception escapes the try block of getContacts. *)
Definition world_unexpected : World :=
  mkWorld (fun _ _ => NetworkFailure "Network request failed") fs_unavailable
          (NetworkFailure "Network request failed")
          (NetworkFailure "Network request failed")
          (Some "TypeError: undefined is not an object").

(** The invariant of the memory snapshot: it holds meaningful contacts
    only. *)
Definition snapshot_meaningful (st : State) : Prop :=
  forall snapshot, cachedContacts st = Some snapshot ->
    Forall (fun c => meaningful c = true) (array_items snapshot).

(** Every array in memory was built before: its identity is below the next
    fresh one. *)
Definition snapshot_allocated (st : State) : Prop :=
  forall snapshot, cachedContacts st = Some snapshot ->
    (array_id snapshot < allocated st)%nat.

(** The configuration once the app has switched to its offline mode. *)
Definition offline_config : Config :=
  {| csvUrl := csvUrl app_config; useLocalCSV := true |}.

(** A client that loads the sample through a failing network, clears the
    cache, and calls again. *)
Definition sample_calls : list Call :=
  [CallGetContacts app_config world_500 0 false; CallClearContactsCache].

(** The array of the formatted sample rows, and the state once it is the
    snapshot taken at time 0. *)
Definition sample_array : ContactArray := mkArray 0 (map formatContact localRows).

Definition state_with_sample : State := mkState (Some sample_array) 0 1.

(** The header row exportContacts writes. *)
Definition export_header : string :=
  "name,company,email,phone,address,city,state,country,zip,balance".

(** Re-ingestion of a CSV text: parseCSVWithFallbacks, then formatContact on
    every row. *)
Definition reingest (Papa_parse : PapaProfile -> string -> PapaOutcome) (csvText : string)
    : Result (list Contact) :=
  match (parseCSVWithFallbacks Papa_parse csvText).1 with
  | Ok rows => Ok (map formatContact rows)
  | Err e => Err e
  end.

(** Papa.parse keys the rows of the exported text by its header row: none of
    its records has one of the four headers the acceptance test reads. *)
Definition keyed_by_export_header (Papa_parse : PapaProfile -> string -> PapaOutcome)
    (contacts : list Contact) : Prop :=
  forall profile results,
    Papa_parse profile (exportContacts_csv contacts) = PapaComplete results ->
    Forall (fun r : RawRecord => forall k, k ∈ identifying_headers -> r !! k = None)
           (data results).

(** Two contacts agree on the ten exported fields. *)
Definition same_exported_fields (c c' : Contact) : Prop :=
  contact_name c' = contact_name c /\ contact_company c' = contact_company c
  /\ contact_email c' = contact_email c /\ contact_phone c' = contact_phone c
  /\ contact_address c' = contact_address c /\ contact_city c' = contact_city c
  /\ contact_state c' = contact_state c /\ contact_country c' = contact_country c
  /\ contact_zip c' = contact_zip c /\ contact_balance c' = contact_balance c.

Definition john_doe : Contact :=
  formatContact (local_row "John Doe" "Tech Corp" "john.doe@email.com" "555-012-3456"
                           "New York" "USA").

(** Evaluates the membership tests of concrete column names in
    [export_columns]. *)
Ltac eval_export_columns :=
  repeat match goal with
         | |- context [bool_decide (?k ∈ export_columns)] =>
             let b := eval vm_compute in (bool_decide (k ∈ export_columns)) in
             change (bool_decide (k ∈ export_columns)) with b
         end;
  cbn [contact_field String.eqb Ascii.eqb Bool.eqb].


(** A text of one line, a hundred characters and more: no parser finds a
    record in it, and the manual parser refuses it. *)
Definition one_line_text : string :=
  "this response is a single line of text, long enough to pass the size check of the fetcher, with no line break at all".

Definition world_one_line : World :=
  mkWorld (fun _ _ => HttpResponse 200 "OK" (Ok one_line_text)) fs_unavailable
          (NetworkFailure "Network request failed")
          (NetworkFailure "Network request failed") None.

(** A file system whose sidecar is eleven minutes old and whose download
    succeeds. *)
Definition fs_stale_sidecar : FileSystemWorld :=
  mkFileSystem (Ok true) (Ok (Some (11 * 60 * 1000))) (Ok "Name,Email") (Ok 200%nat)
               (Ok tt) (Ok localCSVData) (Ok true) (Ok "Name,Email").

(** A file system whose sidecar is nine minutes old. *)
Definition fs_fresh_sidecar : FileSystemWorld :=
  mkFileSystem (Ok true) (Ok (Some (9 * 60 * 1000))) (Ok localCSVData) (Ok 200%nat)
               (Ok tt) (Ok "Name,Email") (Ok true) (Ok "Name,Email").

(** The events fetchCSVFromURL logs: its fetches, failures and delays, and
    the strategies of the parser. *)
Definition fetcher_event (ev : Event) : Prop :=
  match ev with
  | EvFetch _ _ | EvAttemptFailed _ _ | EvSleep _ | EvParse _ => True
  | _ => False
  end.

(** A world whose server answers every request with a text too short to be
    taken for the CSV file. *)
Definition world_small_body : World :=
  mkWorld (fun _ _ => HttpResponse 200 "OK" (Ok "Name,Email")) fs_unavailable
          (NetworkFailure "Network request failed")
          (NetworkFailure "Network request failed") None.

(** A world whose network fails on the first attempt and serves the sample
    text from the second on. *)
Definition world_recovers : World :=
  mkWorld (fun _ attempt => match attempt with
                            | 1%nat => NetworkFailure "Network request failed"
                            | _ => HttpResponse 200 "OK" (Ok localCSVData)
                            end)
          fs_unavailable (NetworkFailure "Network request failed")
          (NetworkFailure "Network request failed") None.

(** The number of line feeds in a text. *)
Definition line_feeds (s : string) : nat :=
  List.length (filter (fun c => c = char_nl) (chars s)).

(** A line with a quoted value that holds a comma and a doubled quote. *)
Definition quoted_line : string :=
  String char_quote ("Doe, John" +:+ String char_quote
    (", " +:+ String char_quote ("say " +:+ String char_quote (String char_quote
    ("hi" +:+ String char_quote (String char_quote (String char_quote ""))))))).

(** The headers formatContact reads the name from, in the order it tries
    them, and those it reads the company, the email and the phone from. *)
Definition name_aliases : list string :=
  ["Name"; "name"; "Company_name"; "Company name"; "company"].

Definition contact_aliases : list string :=
  ["Company_name"; "Company name"; "company"; "organisation"; "Company";
   "Email"; "email"; "Email_Address"; "Phone"; "phone"; "mobile"; "telephone"].

(** A record that names only its organisation. *)
Definition organisation_record : RawRecord :=
  {[ "organisation" := "Tech Corp"; "City" := "New York" ]}.

(** A record that names only its company, under the header of the sample. *)
Definition company_record : RawRecord :=
  {[ "Company_name" := "Acme"; "City" := "Durban" ]}.

(** A record with a name and an email, both with blanks, and no id. *)
Definition spaced_record : RawRecord :=
  {[ "Name" := "John  Doe"; "Email" := "john doe@x.com" ]}.

(** The events downloadAndCacheCSV logs: its calls to the file system. *)
Definition cache_event (ev : Event) : Prop :=
  match ev with
  | EvStorage _ | EvDownload _ => True
  | _ => False
  end.

(** Approach 1b of getContacts: the text of downloadAndCacheCSV, parsed. *)
Definition cacheStage (Papa_parse : PapaProfile -> string -> PapaOutcome) (config : Config)
    (w : World) : M (list RawRecord) :=
  do csvText <- downloadAndCacheCSV (csvUrl config) (w_fs w) in
  parseCSVWithFallbacks Papa_parse csvText.

(** A world whose server answers the first request with the sample text. *)
Definition world_online : World :=
  mkWorld (fun _ _ => HttpResponse 200 "OK" (Ok localCSVData)) fs_unavailable
          (NetworkFailure "Network request failed")
          (NetworkFailure "Network request failed") None.

(** A file system with no sidecar and a cache file left by an earlier run,
    on a device that cannot reach the server. *)
Definition fs_offline_with_file : FileSystemWorld :=
  mkFileSystem (Ok false) (Err "no such file") (Err "no such file")
               (Err "Network request failed") (Ok tt) (Err "no such file")
               (Ok true) (Ok localCSVData).

(** After a download the cache file has one content: the read that follows
    a download answered 200 and the read of the handler, both of
    contacts_cache.csv, see the same text. *)
Definition one_cache_file (fs : FileSystemWorld) : Prop :=
  fs_stale_data fs = fs_downloaded_data fs.

(** A file system with no sidecar whose download is answered 404: the page
    of the answer is what the cache file holds afterwards. *)
Definition fs_not_found : FileSystemWorld :=
  mkFileSystem (Ok false) (Err "no such file") (Err "no such file")
               (Ok 404%nat) (Ok tt) (Ok "<html>404 Not Found</html>")
               (Ok true) (Ok "<html>404 Not Found</html>").

(** A device that writes and shares without a fault. *)
Definition device_ready : Device :=
  mkDevice "file:///data/user/0/app/files/" (Ok tt) (Ok true) (Ok tt) (Ok true) (Ok tt) (Ok tt).

(** Readings of the updates of the screen: the connection statuses set,
    the titles of the alerts shown, in order, and the retry counter after
    the updates. *)
Definition statuses (updates : list Update) : list string :=
  omap (fun u => match u with SetConnectionStatus status => Some status | _ => None end) updates.

Definition alerts (updates : list Update) : list string :=
  omap (fun u => match u with ShowAlert title _ => Some title | _ => None end) updates.

Definition filtered_lists (updates : list Update) : list (list Contact) :=
  omap (fun u => match u with SetFilteredContacts filtered => Some filtered | _ => None end)
       updates.

Definition contacts_set (updates : list Update) : list ContactArray :=
  omap (fun u => match u with SetContacts data => Some data | _ => None end) updates.


(* ===================================================================== *)
(** ** Strings: conversion lemmas *)
(* ===================================================================== *)

Lemma chars_str (l : list ascii) : chars (str l) = l.
Proof. apply list_ascii_of_string_of_list_ascii. Qed.

Lemma str_chars (s : string) : str (chars s) = s.
Proof. apply string_of_list_ascii_of_string. Qed.

Lemma length_str (l : list ascii) : String.length (str l) = List.length l.
Proof. induction l as [|c l IH]; simpl; [reflexivity | now rewrite IH]. Qed.

Lemma truthy_false (s : string) : truthy s = false <-> s = "".
Proof. destruct s; simpl; split; congruence. Qed.

Lemma js_or_empty_r (a : string) : a <||> "" = a.
Proof. now destruct a. Qed.

(* ===================================================================== *)
(** ** formatPhone *)
(* ===================================================================== *)

Lemma ten_digits (l : list ascii) :
  List.length (filter (fun c => is_digit c = true) l) = 10%nat ->
  exists d0 d1 d2 d3 d4 d5 d6 d7 d8 d9,
    filter (fun c => is_digit c = true) l = [d0; d1; d2; d3; d4; d5; d6; d7; d8; d9]
    /\ Forall (fun c => is_digit c = true) [d0; d1; d2; d3; d4; d5; d6; d7; d8; d9].
Proof.
  intros Hlen.
  assert (Hall : Forall (fun c => is_digit c = true) (filter (fun c => is_digit c = true) l)).
  { apply Forall_forall. intros c Hc. now apply list_elem_of_filter in Hc as [Hc _]. }
  destruct (filter _ l) as [|d0 [|d1 [|d2 [|d3 [|d4 [|d5 [|d6 [|d7 [|d8 [|d9 [|? ?]]]]]]]]]]];
    simpl in Hlen; try discriminate.
  now exists d0, d1, d2, d3, d4, d5, d6, d7, d8, d9.
Qed.

Lemma formatPhone_ten (phone : string) :
  String.length (strip_non_digits phone) = 10%nat ->
  display_format (formatPhone phone) = true
  /\ strip_non_digits (formatPhone phone) = strip_non_digits phone.
Proof.
  intros Hlen. unfold formatPhone.
  assert (Ht : truthy phone = true) by (destruct phone; [discriminate Hlen | reflexivity]).
  rewrite Ht, Hlen. simpl negb. simpl Nat.eqb. cbv iota.
  unfold strip_non_digits in *. rewrite length_str in Hlen.
  destruct (ten_digits _ Hlen) as (d0 & d1 & d2 & d3 & d4 & d5 & d6 & d7 & d8 & d9 & Hl & Hd).
  rewrite Hl. unfold regroup_digits. rewrite chars_str. simpl.
  repeat match goal with
         | H : Forall _ (_ :: _) |- _ => apply Forall_cons in H as [? H]
         end.
  split.
  - unfold display_format.
    change (chars (String "(" ?s)) with ("("%char :: chars s). simpl.
    repeat match goal with H : is_digit _ = true |- _ => rewrite H; clear H end.
    reflexivity.
  - change (chars (String "(" ?s)) with ("("%char :: chars s). simpl chars.
    repeat first [ rewrite filter_cons_True by assumption
                 | rewrite filter_cons_False by (vm_compute; congruence) ].
    reflexivity.
Qed.

Lemma formatPhone_other (phone : string) :
  String.length (strip_non_digits phone) <> 10%nat -> formatPhone phone = phone.
Proof.
  intros Hlen. unfold formatPhone.
  destruct (truthy phone) eqn:Ht; simpl negb; cbv iota.
  - apply Nat.eqb_neq in Hlen. now rewrite Hlen.
  - symmetry. now apply truthy_false.
Qed.

(** C3. A phone whose digits, all other characters stripped, are exactly
    ten comes out of formatPhone in the format (XXX) XXX-XXXX, with the same
    ten digits in the same order; a phone with any other number of digits
    comes out unchanged. *)
Theorem formatPhone_ten_digits_or_unchanged (phone : string) :
  (String.length (strip_non_digits phone) = 10%nat ->
     display_format (formatPhone phone) = true
     /\ strip_non_digits (formatPhone phone) = strip_non_digits phone)
  /\ (String.length (strip_non_digits phone) <> 10%nat -> formatPhone phone = phone).
Proof.
  split.
  - intros Hten. now apply formatPhone_ten.
  - intros Hother. now apply formatPhone_other.
Qed.

Example formatPhone_dashes : formatPhone "555-123-4567" = "(555) 123-4567".
Proof. reflexivity. Qed.

Example formatPhone_country_code : formatPhone "+1-555-0123" = "+1-555-0123".
Proof. reflexivity. Qed.

(* ===================================================================== *)
(** ** manualCSVParse: how a line is zipped against the headers *)
(* ===================================================================== *)

Lemma zip_record_absent (headers values : list string) (contact : RawRecord) (h : string) :
  h ∉ take (List.length values) headers ->
  zip_record headers values contact !! h = contact !! h.
Proof.
  revert values contact.
  induction headers as [|h0 headers IH]; intros [|v values] contact Hnot; simpl; try reflexivity.
  simpl in Hnot. apply not_elem_of_cons in Hnot as [Hne Hnot].
  rewrite IH by assumption. now rewrite lookup_insert_ne.
Qed.

Lemma zip_record_present (headers values : list string) (contact : RawRecord)
    (k : nat) (h v : string) :
  headers !! k = Some h -> values !! k = Some v ->
  (forall j, (k < j)%nat -> (j < List.length values)%nat -> headers !! j <> Some h) ->
  zip_record headers values contact !! h = Some v.
Proof.
  revert values contact k.
  induction headers as [|h0 headers IH]; intros [|v0 values] contact [|k] Hh Hv Hlast;
    simpl in *; try discriminate.
  - injection Hh as ->. injection Hv as ->.
    rewrite zip_record_absent.
    + rewrite js_or_empty_r. apply lookup_insert_eq.
    + intros Hin. apply list_elem_of_lookup in Hin as [i Hi].
      apply lookup_take_Some in Hi as [Hi Hlt].
      apply (Hlast (S i)); [lia | lia | exact Hi].
  - apply (IH values _ k); try assumption.
    intros j Hkj Hj. apply (Hlast (S j)); lia.
Qed.

Lemma zip_record_zipped (headers values : list string) :
  zipped headers values (zip_record headers values ∅).
Proof.
  split.
  - intros k h v. apply zip_record_present.
  - intros h Hnot. now rewrite zip_record_absent.
Qed.

Lemma manual_line_Some (headers : list string) (raw : string) (r : RawRecord) :
  manual_line headers raw = Some r <->
  truthy (trim raw) = true
  /\ r = zip_record headers (tokenize (trim raw)) ∅
  /\ manual_accepts r = true.
Proof.
  unfold manual_line. destruct (truthy (trim raw)); simpl.
  - destruct (manual_accepts (zip_record _ _ _)) eqn:Hacc; split.
    + intros [= <-]. auto.
    + intros (_ & -> & _). reflexivity.
    + discriminate.
    + intros (_ & -> & Hr). congruence.
  - split; [discriminate | intros [? _]; discriminate].
Qed.

(** C8 (amended). On a text of at least two lines manualCSVParse returns the
    records of its non-blank, accepted data lines, each the zip of the
    line's values against the header row: values beyond the header count
    are dropped, and a header position the line has no value for is left
    out of the record (the header is not a key, rather than a key mapped to
    the empty string; read through [get], as the normalizer reads it, it is
    as empty as a missing value). *)
Theorem manualCSVParse_zips_up_to_the_shorter (csvText : string) :
  (2 <= List.length (split char_nl csvText))%nat ->
  let lines := split char_nl csvText in
  let headers := manual_headers lines in
  exists rs,
    manualCSVParse csvText = Ok rs
    /\ (forall r, r ∈ rs <->
          exists raw, raw ∈ tail lines /\ truthy (trim raw) = true
                      /\ r = zip_record headers (tokenize (trim raw)) ∅
                      /\ manual_accepts r = true)
    /\ (forall values, zipped headers values (zip_record headers values ∅))
    /\ (forall values k h,
          headers !! k = Some h -> (List.length values <= k)%nat ->
          h ∉ take k headers ->
          zip_record headers values ∅ !! h = None
          /\ get (zip_record headers values ∅) h = "").
Proof.
  intros Hlen lines headers. unfold manualCSVParse. fold lines. fold headers.
  destruct (List.length lines <? 2)%nat eqn:Hlt.
  { apply Nat.ltb_lt in Hlt. unfold lines in Hlt. lia. }
  eexists. split; [reflexivity|]. split; [|split].
  - intros r. rewrite list_elem_of_omap. split.
    + intros (raw & Hraw & Hr). exists raw. split; [assumption|].
      now apply manual_line_Some.
    + intros (raw & Hraw & Hr). exists raw. split; [assumption|].
      now apply manual_line_Some.
  - intros values. apply zip_record_zipped.
  - intros values k h Hk Hle Hnot. unfold get.
    rewrite zip_record_absent; [now rewrite lookup_empty|].
    intros Hin. apply Hnot.
    apply list_elem_of_lookup in Hin as [i Hi].
    apply lookup_take_Some in Hi as [Hi Hlti].
    apply list_elem_of_lookup. exists i. apply lookup_take_Some. split; [assumption | lia].
Qed.

Lemma manualCSVParse_zips_up_to_the_shorter_witness :
  exists rs,
    manualCSVParse short_line_text = Ok rs
    /\ rs = [ {[ "Name" := "John Doe" ]} ].
Proof.
  destruct (manualCSVParse_zips_up_to_the_shorter short_line_text) as (rs & Hrs & _).
  - vm_compute. lia.
  - exists rs. split; [exact Hrs|].
    vm_compute in Hrs. injection Hrs as <-. vm_compute. reflexivity.
Defined.

(** C8, as stated, fails: the line [John Doe] under the headers Name, Email,
    Phone yields a record in which Email and Phone are not keys at all. *)
Lemma manualCSVParse_missing_value_is_no_key :
  exists r,
    manualCSVParse short_line_text = Ok [r]
    /\ manual_headers (split char_nl short_line_text) = ["Name"; "Email"; "Phone"]
    /\ tokenize "John Doe" = ["John Doe"]
    /\ r !! "Name" = Some "John Doe"
    /\ r !! "Email" = None
    /\ r !! "Phone" = None
    /\ r !! "Email" <> Some "".
Proof.
  exists {[ "Name" := "John Doe" ]}.
  repeat split; try (vm_compute; reflexivity).
  vm_compute. discriminate.
Qed.

(* ===================================================================== *)
(** ** The acceptance tests of the two parsers *)
(* ===================================================================== *)

Lemma trim_empty : trim "" = "".
Proof. reflexivity. Qed.

Lemma has_field_spec (r : RawRecord) (k : string) :
  has_field r k = true <-> trim (get r k) <> "".
Proof.
  unfold has_field. rewrite andb_true_iff, negb_true_iff.
  split.
  - intros [_ Hne] Heq. rewrite Heq in Hne. discriminate.
  - intros Hne. split.
    + destruct (get r k) eqn:Hg; [|reflexivity]. now rewrite trim_empty in Hne.
    + destruct (String.eqb_spec (trim (get r k)) ""); congruence.
Qed.

Lemma truthy_true (s : string) : truthy s = true <-> s <> "".
Proof. destruct s; simpl; split; congruence. Qed.

Lemma truthy_js_or (a b : string) : truthy (a <||> b) = truthy a || truthy b.
Proof. now destruct a, b. Qed.

Lemma exists_identifying (P : string -> Prop) :
  (exists k, k ∈ identifying_headers /\ P k) <->
  P "Name" \/ P "Email" \/ P "Phone" \/ P "Company_name".
Proof.
  unfold identifying_headers. split.
  - intros (k & Hk & HP).
    repeat (apply elem_of_cons in Hk as [-> | Hk]; [tauto|]).
    now apply elem_of_nil in Hk.
  - intros [H | [H | [H | H]]]; eexists; (split; [|exact H]);
      repeat first [ apply list_elem_of_here | apply list_elem_of_further ].
Qed.

(** C7 (amended). The acceptance test of the Papa.parse strategies holds
    exactly when the record has more than one key (populated or not) and one
    of the four headers Name, Email, Phone, Company_name, spelled so, holds
    a value that is not blank; the acceptance test of the manual parser
    holds exactly when one of these four headers holds a non-empty value. *)
Theorem acceptance_reads_four_fixed_headers (r : RawRecord) :
  (papa_valid r = true <->
     (1 < size r)%nat /\ exists k, k ∈ identifying_headers /\ trim (get r k) <> "")
  /\ (manual_accepts r = true <->
        exists k, k ∈ identifying_headers /\ get r k <> "").
Proof.
  split.
  - unfold papa_valid. rewrite andb_true_iff, !orb_true_iff, !has_field_spec.
    rewrite Nat.ltb_lt, exists_identifying. tauto.
  - unfold manual_accepts. rewrite !truthy_js_or, !orb_true_iff, !truthy_true.
    rewrite exists_identifying. tauto.
Qed.

(** C7, as stated, fails in both directions: a record that identifies its
    contact under the aliases name and email is refused by both tests, and a
    record with a single populated field is accepted. *)
Lemma acceptance_differs_from_claim :
  (claimed_acceptance lowercase_record = true
   /\ papa_valid lowercase_record = false
   /\ manual_accepts lowercase_record = false
   /\ contact_name (formatContact lowercase_record) = "John Doe"
   /\ contact_email (formatContact lowercase_record) = "john@x.com")
  /\ (populated_fields one_value_record = 1%nat
      /\ claimed_acceptance one_value_record = false
      /\ papa_valid one_value_record = true).
Proof. vm_compute. repeat split. Qed.

(* ===================================================================== *)
(** ** parseCSVWithFallbacks *)
(* ===================================================================== *)

Section ParserProperties.

Variable Papa_parse : PapaProfile -> string -> PapaOutcome.

Lemma run_strategy_papa (profile : PapaProfile) (csvText : string) :
  run_strategy Papa_parse (PapaStrategy profile) csvText
  = (match accepted_rows Papa_parse profile csvText with
     | [] => Err match Papa_parse profile csvText with
                 | PapaComplete _ => "No valid contacts found after parsing"
                 | PapaFailure e => e
                 end
     | rows => Ok rows
     end, [EvParse (PapaStrategy profile)]).
Proof.
  unfold run_strategy, accepted_rows.
  destruct (Papa_parse profile csvText) as [results | e]; [|reflexivity].
  destruct (filter _ (data results)); reflexivity.
Qed.

Lemma run_strategy_manual (csvText : string) :
  run_strategy Papa_parse Manual csvText = (manualCSVParse csvText, [EvParse Manual]).
Proof. unfold run_strategy. now destruct (manualCSVParse csvText). Qed.

(** The outcome of parseCSVWithFallbacks, strategy by strategy: the accepted
    rows of the first profile when there are any, else those of the second
    when there are any, else whatever manualCSVParse returns, and an error
    only when manualCSVParse throws. *)
Lemma parseCSVWithFallbacks_outcome (csvText : string) :
  (parseCSVWithFallbacks Papa_parse csvText).1
  = match accepted_rows Papa_parse EnhancedStandard csvText with
    | (_ :: _) as rows => Ok rows
    | [] =>
        match accepted_rows Papa_parse Relaxed csvText with
        | (_ :: _) as rows => Ok rows
        | [] =>
            match manualCSVParse csvText with
            | Ok rows => Ok rows
            | Err _ => Err "All parsing strategies failed"
            end
        end
    end.
Proof.
  unfold parseCSVWithFallbacks, strategies. cbn [try_strategies].
  rewrite !run_strategy_papa, run_strategy_manual.
  destruct (accepted_rows Papa_parse EnhancedStandard csvText); [|reflexivity].
  destruct (accepted_rows Papa_parse Relaxed csvText); [|reflexivity].
  now destruct (manualCSVParse csvText).
Qed.

(** Every strategy tried is logged, in order; nothing else is. *)
Lemma parseCSVWithFallbacks_events (csvText : string) :
  exists n, (parseCSVWithFallbacks Papa_parse csvText).2
            = map EvParse (take n strategies) /\ (1 <= n)%nat.
Proof.
  unfold parseCSVWithFallbacks, strategies. cbn [try_strategies].
  rewrite !run_strategy_papa, run_strategy_manual.
  destruct (accepted_rows Papa_parse EnhancedStandard csvText); [|exists 1%nat; split; [reflexivity | lia]].
  destruct (accepted_rows Papa_parse Relaxed csvText); [|exists 2%nat; split; [reflexivity | lia]].
  exists 3%nat. split; [|lia]. now destruct (manualCSVParse csvText).
Qed.

(** The manual strategy succeeds with no record at all when the text has two
    lines or more and none of its data lines is accepted. *)
Lemma parseCSVWithFallbacks_empty_success (csvText : string) :
  accepted_rows Papa_parse EnhancedStandard csvText = [] ->
  accepted_rows Papa_parse Relaxed csvText = [] ->
  manualCSVParse csvText = Ok [] ->
  (parseCSVWithFallbacks Papa_parse csvText).1 = Ok [].
Proof.
  intros H1 H2 H3. now rewrite parseCSVWithFallbacks_outcome, H1, H2, H3.
Qed.

End ParserProperties.

(** C6 (the code departs from it). The server answers with an HTML page in
    place of the CSV file: both Papa.parse strategies find no valid record
    and pass control on, the manual strategy finds none either and returns
    the empty list, so parseCSVWithFallbacks succeeds with zero records;
    getContacts then returns (and caches) an empty list of contacts without
    reaching the later stages of its ladder. *)
Lemma parseCSVWithFallbacks_succeeds_with_no_record :
  parseCSVWithFallbacks papa_reference error_page
  = (Ok [], [EvParse (PapaStrategy EnhancedStandard); EvParse (PapaStrategy Relaxed);
             EvParse Manual])
  /\ (100 <= String.length error_page)%nat
  /\ accepted_rows papa_reference EnhancedStandard error_page = []
  /\ accepted_rows papa_reference Relaxed error_page = []
  /\ manualCSVParse error_page = Ok []
  /\ exists t,
       getContacts papa_reference app_config world_error_page 1000 false initial_state
       = ((Ok (mkArray 0 []), t), mkState (Some (mkArray 0 [])) 1000 1)
       /\ EvLoadLocal ∉ t.
Proof.
  repeat split; try (vm_compute; reflexivity).
  - vm_compute. lia.
  - eexists. split; [vm_compute; reflexivity|].
    intros Hin. repeat (apply elem_of_cons in Hin as [Hin | Hin]; [discriminate|]).
    now apply elem_of_nil in Hin.
Qed.

(* ===================================================================== *)
(** ** fetchCSVFromURL *)
(* ===================================================================== *)

Section FetcherProperties.

Variable Papa_parse : PapaProfile -> string -> PapaOutcome.



(** A failed attempt below the ceiling: the failure is logged, the delay is
    slept, and the next attempt follows. *)
Lemma fetchCSVFromURL_retry (w : World) (url : string) (attempt : nat) (error : Error)
    (t : list Event) :
  fetch_text w url attempt = (Err error, t) ->
  (attempt < maxAttempts)%nat ->
  fetchCSVFromURL Papa_parse w url attempt
  = after (t ++ [EvAttemptFailed attempt error; EvSleep (retryDelay attempt)])
          (fetchCSVFromURL Papa_parse w url (S attempt)).
Proof.
  intros Hf Hlt. rewrite fetchCSVFromURL_equation_1. rewrite Hf.
  cbn. destruct (lt_dec attempt maxAttempts); [reflexivity | contradiction].
Qed.

(** A failed attempt at (or past) the ceiling: the terminal error. *)
Lemma fetchCSVFromURL_give_up (w : World) (url : string) (attempt : nat) (error : Error)
    (t : list Event) :
  fetch_text w url attempt = (Err error, t) ->
  ~ (attempt < maxAttempts)%nat ->
  fetchCSVFromURL Papa_parse w url attempt
  = (Err ("Failed to fetch CSV after 3 attempts: " +:+ error),
     t ++ [EvAttemptFailed attempt error]).
Proof.
  intros Hf Hlt. rewrite fetchCSVFromURL_equation_1. rewrite Hf.
  cbn. destruct (lt_dec attempt maxAttempts); [contradiction|].
  reflexivity.
Qed.

(** A fetched text goes to the parser, whose outcome is the outcome of the
    call: a parse error is not retried. *)
Lemma fetchCSVFromURL_fetched (w : World) (url : string) (attempt : nat) (csvText : string)
    (t : list Event) :
  fetch_text w url attempt = (Ok csvText, t) ->
  fetchCSVFromURL Papa_parse w url attempt
  = after t (parseCSVWithFallbacks Papa_parse csvText).
Proof.
  intros Hf. rewrite fetchCSVFromURL_equation_1. rewrite Hf. reflexivity.
Qed.


End FetcherProperties.



(* ===================================================================== *)
(** ** getContacts *)
(* ===================================================================== *)

Lemma meaningful_spec (c : Contact) : meaningful c = true <-> valid_contact c.
Proof.
  unfold meaningful, valid_contact.
  rewrite !orb_true_iff, negb_true_iff, !truthy_true.
  destruct (String.eqb_spec (contact_name c) "Unknown Contact"); intuition congruence.
Qed.

Lemma papa_reference_parses_sample : papa_parses_sample papa_reference.
Proof. exists (mkResults localRows []). split; [vm_compute; reflexivity | reflexivity]. Qed.

Lemma sample_contacts_meaningful :
  Forall (fun c => meaningful c = true) (map formatContact localRows).
Proof. repeat constructor. Qed.

Section GetContactsProperties.

Variable Papa_parse : PapaProfile -> string -> PapaOutcome.
Variable config : Config.

Lemma loadLocalCSV_sample :
  papa_parses_sample Papa_parse ->
  loadLocalCSV Papa_parse = (Ok localRows, [EvLoadLocal]).
Proof.
  intros (results & Hparse & Hdata). unfold loadLocalCSV. rewrite Hparse, Hdata. reflexivity.
Qed.

Lemma try_catch_succeeds {A} (m : M A) (handler : Error -> M A) :
  (forall e, exists a t, handler e = (Ok a, t)) ->
  exists a t, try_catch m handler = (Ok a, t).
Proof.
  intros Hh. destruct m as [[a | e] t]; simpl; [eauto|].
  destruct (Hh e) as (a & t' & ->). unfold after. simpl. eauto.
Qed.

(** The acquisition ladder always ends with rows: its last rung is the
    bundled sample. *)
Lemma acquire_succeeds (w : World) :
  papa_parses_sample Papa_parse ->
  exists rows t, acquire Papa_parse config w = (Ok rows, t).
Proof.
  intros Hs. unfold acquire. destruct (useLocalCSV config).
  - rewrite loadLocalCSV_sample by assumption. eauto.
  - repeat (apply try_catch_succeeds; intros ?).
    rewrite loadLocalCSV_sample by assumption. eauto.
Qed.

(** The try block fails only when an exception escapes the ladder. *)
Lemma try_block_fails (w : World) (error : Error) (t : list Event) :
  papa_parses_sample Papa_parse ->
  try_block Papa_parse config w = (Err error, t) -> w_unexpected w = Some error.
Proof.
  intros Hs. unfold try_block.
  destruct (acquire_succeeds w Hs) as (rows & t0 & ->). simpl.
  destruct (w_unexpected w); unfold after; simpl; congruence.
Qed.

(** getContacts always returns an array. *)
Lemma getContacts_returns (w : World) (now : Z) (forceRefresh : bool) (st : State) :
  papa_parses_sample Papa_parse ->
  exists result t st',
    getContacts Papa_parse config w now forceRefresh st = ((Ok result, t), st').
Proof.
  intros Hs. unfold getContacts.
  destruct (cache_hit now forceRefresh st); [by do 3 eexists|].
  destruct (try_block Papa_parse config w) as [[formatted | error] t]; [by do 3 eexists|].
  unfold catch_block. destruct (cachedContacts st); [by do 3 eexists|].
  rewrite loadLocalCSV_sample by assumption. by do 3 eexists.
Qed.

(** C1. getContacts never throws: whatever the flag, the state, the clock
    and the outcomes of the network, the parser and the cache, it returns an
    array of contacts. When an error escapes the try block, the array is the
    previous snapshot if there is one (the very same array, the state left
    as it was), else the bundled sample rows, each formatted. *)
Theorem getContacts_never_throws (w : World) (now : Z) (forceRefresh : bool) (st : State) :
  papa_parses_sample Papa_parse ->
  exists result t st',
    getContacts Papa_parse config w now forceRefresh st = ((Ok result, t), st')
    /\ (forall error t0,
          cache_hit now forceRefresh st = None ->
          try_block Papa_parse config w = (Err error, t0) ->
          match cachedContacts st with
          | Some previous => result = previous /\ st' = st
          | None =>
              array_items result = map formatContact localRows
              /\ cachedContacts st' = None /\ lastFetchTime st' = lastFetchTime st
          end).
Proof.
  intros Hs. unfold getContacts.
  destruct (cache_hit now forceRefresh st) as [cached|] eqn:Hhit.
  { do 3 eexists. split; [reflexivity|]. intros ? ? [=]. }
  destruct (try_block Papa_parse config w) as [[formatted | error] t] eqn:Htry.
  { do 3 eexists. split; [reflexivity|]. intros ? ? _ [=]. }
  unfold catch_block.
  destruct (cachedContacts st) as [previous|] eqn:Hc.
  - do 3 eexists. split; [reflexivity|]. intros ? ? _ _. split; reflexivity.
  - rewrite loadLocalCSV_sample by assumption.
    do 3 eexists. split; [reflexivity|]. intros ? ? _ _. repeat split.
Qed.

End GetContactsProperties.

Lemma getContacts_never_throws_witness :
  papa_parses_sample papa_reference
  /\ exists result t st',
       getContacts papa_reference app_config world_unexpected 1000 false initial_state
       = ((Ok result, t), st')
       /\ array_items result = map formatContact localRows
       /\ cachedContacts st' = None.
Proof.
  split; [exact papa_reference_parses_sample|].
  destruct (getContacts_never_throws papa_reference app_config world_unexpected 1000 false
              initial_state papa_reference_parses_sample)
    as (result & t & st' & Hrun & Hescape).
  exists result, t, st'. split; [exact Hrun|].
  destruct (Hescape "TypeError: undefined is not an object"
              (try_block papa_reference app_config world_unexpected).2) as (Hitems & Hcache & _).
  - reflexivity.
  - vm_compute. reflexivity.
  - split; assumption.
Defined.

(* ===================================================================== *)
(** ** getContacts and the memory snapshot *)
(* ===================================================================== *)

Lemma unidentified_not_meaningful (raw : RawRecord) :
  unidentified raw -> meaningful (formatContact raw) = false.
Proof.
  unfold unidentified, identifying_aliases. intros H.
  repeat match goal with
         | H : Forall _ (_ :: _) |- _ => apply Forall_cons in H as [? H]
         end.
  unfold meaningful, formatContact, getName, getEmail, getPhone, getCompany. simpl.
  repeat match goal with E : get raw _ = "" |- _ => rewrite E; clear E end.
  reflexivity.
Qed.

Section SnapshotProperties.

Variable Papa_parse : PapaProfile -> string -> PapaOutcome.

Lemma try_block_meaningful (config : Config) (w : World) (formattedContacts : list Contact) (t : list Event) :
  try_block Papa_parse config w = (Ok formattedContacts, t) ->
  Forall (fun c => meaningful c = true) formattedContacts.
Proof.
  unfold try_block.
  destruct (acquire Papa_parse config w) as [[rows | e] t0]; simpl; [|discriminate].
  destruct (w_unexpected w); unfold after; simpl; [discriminate|].
  intros [= <- _]. apply Forall_forall. intros c Hc.
  now apply list_elem_of_filter in Hc as [Hc _].
Qed.

Lemma getContacts_keeps_snapshot_meaningful (config : Config) (w : World) (now : Z) (forceRefresh : bool)
    (st : State) :
  snapshot_meaningful st ->
  snapshot_meaningful (getContacts Papa_parse config w now forceRefresh st).2.
Proof.
  intros Hinv. unfold getContacts.
  destruct (cache_hit now forceRefresh st); [exact Hinv|].
  destruct (try_block Papa_parse config w) as [[formatted | error] t] eqn:Htry.
  - intros snapshot [= <-]. simpl. eapply try_block_meaningful, Htry.
  - unfold catch_block. destruct (cachedContacts st) eqn:Hc; [exact Hinv|].
    destruct (loadLocalCSV Papa_parse) as [[rows | e] t']; simpl.
    + intros snapshot [=].
    + exact Hinv.
Qed.

Lemma step_keeps_snapshot_meaningful (st : State) (c : Call) :
  snapshot_meaningful st -> snapshot_meaningful (step Papa_parse st c).
Proof.
  destruct c as [cfg w now forceRefresh|]; simpl.
  - apply getContacts_keeps_snapshot_meaningful.
  - intros _ snapshot [=].
Qed.

Lemma foldl_step_snapshot_meaningful (calls : list Call) (st : State) :
  snapshot_meaningful st ->
  snapshot_meaningful (foldl (step Papa_parse) st calls).
Proof.
  revert st. induction calls as [|c calls IH]; intros st Hinv; simpl; [exact Hinv|].
  apply IH, step_keeps_snapshot_meaningful, Hinv.
Qed.

Lemma replay_snapshot_meaningful (calls : list Call) :
  snapshot_meaningful (replay Papa_parse calls).
Proof.
  apply foldl_step_snapshot_meaningful. intros snapshot [=].
Qed.

Lemma getContacts_result_meaningful (config : Config) (w : World) (now : Z) (forceRefresh : bool) (st : State)
    (result : ContactArray) (t : list Event) (st' : State) :
  papa_parses_sample Papa_parse ->
  snapshot_meaningful st ->
  getContacts Papa_parse config w now forceRefresh st = ((Ok result, t), st') ->
  Forall (fun c => meaningful c = true) (array_items result).
Proof.
  intros Hs Hinv. unfold getContacts, cache_hit.
  destruct (cachedContacts st) as [cached|] eqn:Hc.
  - destruct (negb forceRefresh && (now - lastFetchTime st <? CACHE_DURATION)).
    { intros [= <- _ _]. now apply Hinv. }
    destruct (try_block Papa_parse config w) as [[formatted | error] t0] eqn:Htry.
    + intros [= <- _ _]. simpl. eapply try_block_meaningful, Htry.
    + unfold catch_block. rewrite Hc. unfold after. simpl.
      intros [= <- _ _]. now apply Hinv.
  - destruct (try_block Papa_parse config w) as [[formatted | error] t0] eqn:Htry.
    + intros [= <- _ _]. simpl. eapply try_block_meaningful, Htry.
    + unfold catch_block. rewrite Hc, (loadLocalCSV_sample _ Hs). unfold after. simpl.
      intros [= <- _ _]. simpl. apply sample_contacts_meaningful.
Qed.

Lemma getContacts_keeps_snapshot_allocated (config : Config) (w : World) (now : Z)
    (forceRefresh : bool) (st : State) :
  snapshot_allocated st ->
  snapshot_allocated (getContacts Papa_parse config w now forceRefresh st).2.
Proof.
  intros Hinv. unfold getContacts.
  destruct (cache_hit now forceRefresh st); [exact Hinv|].
  destruct (try_block Papa_parse config w) as [[formatted | error] t].
  - intros snapshot [= <-]. simpl. lia.
  - unfold catch_block. destruct (cachedContacts st) eqn:Hc; [exact Hinv|].
    destruct (loadLocalCSV Papa_parse) as [[rows | e] t']; simpl.
    + intros snapshot [=].
    + exact Hinv.
Qed.

Lemma replay_snapshot_allocated (calls : list Call) :
  snapshot_allocated (replay Papa_parse calls).
Proof.
  unfold replay.
  assert (H : forall st, snapshot_allocated st ->
            snapshot_allocated (foldl (step Papa_parse) st calls)).
  { induction calls as [|c calls IH]; intros st Hinv; simpl; [exact Hinv|].
    apply IH. destruct c as [cfg w now forceRefresh|]; simpl.
    - now apply getContacts_keeps_snapshot_allocated.
    - intros snapshot [=]. }
  apply H. intros snapshot [=].
Qed.

(** A refresh that succeeds builds a new array: its identity is not the
    identity of the snapshot it replaces. *)
Lemma getContacts_refresh_builds_a_new_array (config : Config) (calls : list Call)
    (w : World) (now : Z) (forceRefresh : bool) (previous : ContactArray)
    (formattedContacts : list Contact) (t : list Event) :
  cachedContacts (replay Papa_parse calls) = Some previous ->
  cache_hit now forceRefresh (replay Papa_parse calls) = None ->
  try_block Papa_parse config w = (Ok formattedContacts, t) ->
  exists result st',
    getContacts Papa_parse config w now forceRefresh (replay Papa_parse calls)
    = ((Ok result, t), st')
    /\ array_id result <> array_id previous.
Proof.
  intros Hc Hmiss Htry. unfold getContacts. rewrite Hmiss, Htry.
  do 2 eexists. split; [reflexivity|]. simpl.
  pose proof (replay_snapshot_allocated calls _ Hc). lia.
Qed.

(** C2. Whatever calls came before, whatever path the call takes (snapshot,
    any stage of the ladder, expired snapshot, bundled sample), every
    contact of the array getContacts returns is valid: its name is not
    Unknown Contact, or its email, phone or company is not empty. The
    contact formatted from a raw record with no identifying field is never
    in it. *)
Theorem getContacts_returns_valid_contacts (config : Config) (calls : list Call) (w : World) (now : Z)
    (forceRefresh : bool) :
  papa_parses_sample Papa_parse ->
  exists result t st',
    getContacts Papa_parse config w now forceRefresh (replay Papa_parse calls)
    = ((Ok result, t), st')
    /\ Forall valid_contact (array_items result)
    /\ (forall raw, unidentified raw -> formatContact raw ∉ array_items result).
Proof.
  intros Hs.
  destruct (getContacts_returns Papa_parse config w now forceRefresh
              (replay Papa_parse calls) Hs) as (result & t & st' & Hrun).
  exists result, t, st'. split; [exact Hrun|].
  pose proof (getContacts_result_meaningful _ _ _ _ _ _ _ _ Hs
                (replay_snapshot_meaningful calls) Hrun) as Hall.
  split.
  - eapply Forall_impl; [exact Hall|]. intros c. apply meaningful_spec.
  - intros raw Hraw Hin.
    rewrite Forall_forall in Hall. specialize (Hall _ Hin).
    rewrite (unidentified_not_meaningful _ Hraw) in Hall. discriminate.
Qed.

(** C4. With a snapshot in memory and both calls made while it is younger
    than CACHE_DURATION, two consecutive calls getContacts(false) return the
    very same array (same identity, same contents), log no event at all (no
    fetch, no download, no parse) and leave the state as it was. *)
Theorem getContacts_twice_within_window (config : Config) (w1 w2 : World) (now1 now2 : Z) (st : State)
    (snapshot : ContactArray) :
  cachedContacts st = Some snapshot ->
  now1 - lastFetchTime st < CACHE_DURATION ->
  now2 - lastFetchTime st < CACHE_DURATION ->
  getContacts Papa_parse config w1 now1 false st = ((Ok snapshot, []), st)
  /\ getContacts Papa_parse config w2 now2 false
       (getContacts Papa_parse config w1 now1 false st).2
     = ((Ok snapshot, []), st).
Proof.
  intros Hc H1 H2.
  assert (Hget : forall w now, now - lastFetchTime st < CACHE_DURATION ->
            getContacts Papa_parse config w now false st = ((Ok snapshot, []), st)).
  { intros w now Hnow. unfold getContacts, cache_hit. rewrite Hc.
    apply Z.ltb_lt in Hnow. rewrite Hnow. reflexivity. }
  rewrite (Hget w1 now1 H1). simpl. split; [reflexivity|]. exact (Hget w2 now2 H2).
Qed.

Lemma get_each_within_window (later : list (Config * World * Z)) (st : State)
    (snapshot : ContactArray) :
  cachedContacts st = Some snapshot ->
  Forall (fun call => call.2 - lastFetchTime st < CACHE_DURATION) later ->
  get_each Papa_parse later st = (map (fun _ => (Ok snapshot, [])) later, st).
Proof.
  intros Hc. induction later as [|[[cfg w] now] later IH]; intros Hall; simpl; [reflexivity|].
  apply Forall_cons in Hall as [Hnow Hall]. simpl in Hnow.
  unfold getContacts at 1, cache_hit. rewrite Hc.
  apply Z.ltb_lt in Hnow. rewrite Hnow. simpl.
  now rewrite (IH Hall).
Qed.

(** C10. When the try block of getContacts succeeds, through whichever
    stage of the ladder, the bundled sample included, the array it built and
    the time of the call are written to the snapshot; every later call
    getContacts(false) made less than CACHE_DURATION after that time returns
    that very array and logs no event: no network access, no parse. *)
Theorem getContacts_success_is_cached (config : Config) (w : World) (now : Z) (forceRefresh : bool) (st : State)
    (formattedContacts : list Contact) (t : list Event) :
  cache_hit now forceRefresh st = None ->
  try_block Papa_parse config w = (Ok formattedContacts, t) ->
  exists result st',
    getContacts Papa_parse config w now forceRefresh st = ((Ok result, t), st')
    /\ array_items result = formattedContacts
    /\ cachedContacts st' = Some result
    /\ lastFetchTime st' = now
    /\ (forall later,
          Forall (fun call => call.2 - now < CACHE_DURATION) later ->
          get_each Papa_parse later st'
          = (map (fun _ => (Ok result, [])) later, st')).
Proof.
  intros Hmiss Htry. unfold getContacts. rewrite Hmiss, Htry.
  do 2 eexists. split; [reflexivity|]. repeat split.
  intros later Hlater. now apply get_each_within_window.
Qed.

(** In local mode the stage that succeeds is the bundled sample. *)
Lemma try_block_sample (config : Config) (w : World) :
  papa_parses_sample Papa_parse ->
  useLocalCSV config = true ->
  w_unexpected w = None ->
  try_block Papa_parse config w
  = (Ok (map formatContact localRows), [EvLoadLocal]).
Proof.
  intros Hs Hlocal Hu. unfold try_block, acquire.
  rewrite Hlocal, (loadLocalCSV_sample _ Hs). simpl. rewrite Hu. reflexivity.
Qed.

End SnapshotProperties.

Lemma getContacts_returns_valid_contacts_witness :
  papa_parses_sample papa_reference
  /\ exists result t st',
       getContacts papa_reference app_config world_unexpected 1000 false
         (replay papa_reference sample_calls)
       = ((Ok result, t), st')
       /\ Forall valid_contact (array_items result).
Proof.
  split; [exact papa_reference_parses_sample|].
  destruct (getContacts_returns_valid_contacts papa_reference app_config sample_calls
              world_unexpected 1000 false papa_reference_parses_sample)
    as (result & t & st' & Hrun & Hvalid & _).
  exists result, t, st'. split; assumption.
Defined.

Lemma getContacts_twice_within_window_witness :
  cachedContacts state_with_sample = Some sample_array
  /\ 1000 - lastFetchTime state_with_sample < CACHE_DURATION
  /\ 299999 - lastFetchTime state_with_sample < CACHE_DURATION
  /\ getContacts papa_reference app_config world_500 1000 false state_with_sample
     = ((Ok sample_array, []), state_with_sample)
  /\ getContacts papa_reference app_config world_error_page 299999 false
       (getContacts papa_reference app_config world_500 1000 false state_with_sample).2
     = ((Ok sample_array, []), state_with_sample).
Proof.
  assert (Hc : cachedContacts state_with_sample = Some sample_array) by reflexivity.
  assert (H1 : 1000 - lastFetchTime state_with_sample < CACHE_DURATION) by reflexivity.
  assert (H2 : 299999 - lastFetchTime state_with_sample < CACHE_DURATION) by reflexivity.
  repeat (split; [assumption|]).
  exact (getContacts_twice_within_window papa_reference app_config world_500 world_error_page
           1000 299999 state_with_sample sample_array Hc H1 H2).
Defined.

Lemma getContacts_success_is_cached_witness :
  cache_hit 0 false initial_state = None
  /\ try_block papa_reference app_config world_500
     = (Ok (map formatContact localRows),
        (try_block papa_reference app_config world_500).2)
  /\ exists result st',
       getContacts papa_reference app_config world_500 0 false initial_state
       = ((Ok result, (try_block papa_reference app_config world_500).2), st')
       /\ array_items result = map formatContact localRows
       /\ get_each papa_reference
            [(app_config, world_error_page, 1000); (offline_config, world_unexpected, 299999)]
            st'
          = ([(Ok result, []); (Ok result, [])], st').
Proof.
  assert (Hmiss : cache_hit 0 false initial_state = None) by reflexivity.
  assert (Htry : try_block papa_reference app_config world_500
                 = (Ok (map formatContact localRows),
                    (try_block papa_reference app_config world_500).2))
    by (vm_compute; reflexivity).
  repeat (split; [assumption|]).
  destruct (getContacts_success_is_cached papa_reference app_config world_500 0 false
              initial_state _ _ Hmiss Htry)
    as (result & st' & Hrun & Hitems & _ & _ & Hlater).
  exists result, st'. repeat (split; [assumption|]).
  apply (Hlater [(app_config, world_error_page, 1000);
                 (offline_config, world_unexpected, 299999)]).
  repeat constructor.
Defined.

(* ===================================================================== *)
(** ** exportContacts, then re-ingestion *)
(* ===================================================================== *)

Lemma formatPhone_idempotent (phone : string) :
  formatPhone (formatPhone phone) = formatPhone phone.
Proof.
  destruct (decide (String.length (strip_non_digits phone) = 10%nat)) as [Hten | Hother].
  - destruct (formatPhone_ten phone Hten) as [_ Hdigits].
    assert (Hten' : String.length (strip_non_digits (formatPhone phone)) = 10%nat)
      by now rewrite Hdigits.
    unfold formatPhone at 1.
    assert (Ht : truthy (formatPhone phone) = true).
    { destruct (formatPhone phone); [discriminate Hten' | reflexivity]. }
    rewrite Ht, Hten', Hdigits. simpl negb. simpl Nat.eqb. cbv iota.
    unfold formatPhone.
    assert (Ht' : truthy phone = true) by (destruct phone; [discriminate Hten | reflexivity]).
    now rewrite Ht', Hten.
  - now rewrite !(formatPhone_other phone Hother).
Qed.

Lemma js_or_not_empty (a b : string) : b <> "" -> a <||> b <> "".
Proof. destruct a; simpl; congruence. Qed.

Lemma js_or_empty_l (b : string) : "" <||> b = b.
Proof. reflexivity. Qed.

Lemma js_or_left (a b : string) : a <> "" -> a <||> b = a.
Proof. destruct a; simpl; congruence. Qed.

Lemma getName_not_empty (raw : RawRecord) : getName raw <> "".
Proof. unfold getName. repeat apply js_or_not_empty. discriminate. Qed.

(** The normalizer reads back the exported row of a contact it produced. *)
Lemma formatContact_exported_row (raw : RawRecord) :
  let c := formatContact raw in
  same_exported_fields c (formatContact (exported_row c))
  /\ (get raw "id" = "" -> contact_id (formatContact (exported_row c)) = contact_id c).
Proof.
  intros c.
  assert (Hget : forall k, get (exported_row c) k
                           = if bool_decide (k ∈ export_columns) then contact_field c k else "").
  { intros k.
    destruct (decide (k ∈ export_columns)) as [Hin | Hout].
    - unfold export_columns in Hin.
      repeat (apply elem_of_cons in Hin as [-> | Hin]; [reflexivity|]).
      now apply elem_of_nil in Hin.
    - rewrite bool_decide_eq_false_2 by assumption.
      unfold get. replace (exported_row c !! k) with (@None string); [reflexivity|].
      symmetry. apply not_elem_of_list_to_map_1.
      unfold exported_row. rewrite <- list_fmap_compose.
      replace ((fst ∘ (fun column => (column, contact_field c column))) <$> export_columns)
        with export_columns by reflexivity.
      exact Hout. }
  assert (Hname : contact_name (formatContact (exported_row c)) = contact_name c).
  { cbn [formatContact contact_name]. unfold getName at 1. rewrite !Hget.
    eval_export_columns. cbn. apply js_or_left. apply getName_not_empty. }
  assert (Hemail : contact_email (formatContact (exported_row c)) = contact_email c).
  { cbn [formatContact contact_email]. unfold getEmail at 1. rewrite !Hget.
    eval_export_columns. cbn. now rewrite js_or_empty_r. }
  split.
  - unfold same_exported_fields. split; [exact Hname|]. split; [|split; [exact Hemail|]].
    + cbn [formatContact contact_company]. unfold getCompany at 1. rewrite !Hget.
      eval_export_columns. cbn. now rewrite js_or_empty_r.
    + split.
      { cbn [formatContact contact_phone]. unfold getPhone at 1. rewrite !Hget.
        eval_export_columns. cbn. rewrite js_or_empty_r. unfold getPhone. apply formatPhone_idempotent. }
      repeat split.
      * cbn [formatContact contact_address]. unfold getAddress at 1. rewrite !Hget.
        eval_export_columns. cbn. now rewrite js_or_empty_r.
      * cbn [formatContact contact_city]. unfold getCity at 1. rewrite !Hget.
        eval_export_columns. cbn. now rewrite js_or_empty_r.
      * cbn [formatContact contact_state]. unfold getState at 1. rewrite !Hget.
        eval_export_columns. cbn. now rewrite js_or_empty_r.
      * cbn [formatContact contact_country]. unfold getCountry at 1. rewrite !Hget.
        eval_export_columns. cbn. now rewrite js_or_empty_r.
      * cbn [formatContact contact_zip]. rewrite !Hget.
        eval_export_columns. cbn. now rewrite js_or_empty_r.
      * cbn [formatContact contact_balance]. unfold getBalance at 1. rewrite !Hget.
        eval_export_columns. cbn. now rewrite js_or_empty_r.
  - intros Hid.
    change (contact_id (formatContact (exported_row c)))
      with (get (exported_row c) "id"
            <||> underscore_each_space
                   (contact_name (formatContact (exported_row c)) +:+ "_"
                    +:+ contact_email (formatContact (exported_row c)))).
    rewrite Hget, Hname, Hemail. eval_export_columns. cbn.
    unfold c. cbn [formatContact contact_id contact_name contact_email].
    now rewrite Hid.
Qed.

Lemma chars_app (a b : string) : chars (a +:+ b) = chars a ++ chars b.
Proof. induction a as [|c a IH]; simpl; [reflexivity|]. unfold chars in *. simpl. now rewrite IH. Qed.

Lemma split_go_first_line (sep : ascii) (l1 l2 cur : list ascii) :
  sep ∉ l1 ->
  split_go sep cur (l1 ++ sep :: l2) = str (rev cur ++ l1) :: split_go sep [] l2.
Proof.
  revert cur. induction l1 as [|c l1 IH]; intros cur Hnot; simpl.
  - rewrite bool_decide_eq_true_2 by reflexivity. now rewrite app_nil_r.
  - apply not_elem_of_cons in Hnot as [Hne Hnot].
    rewrite bool_decide_eq_false_2 by congruence.
    rewrite IH by assumption. simpl. now rewrite <- app_assoc.
Qed.

Lemma split_go_not_nil (sep : ascii) (l cur : list ascii) :
  (1 <= List.length (split_go sep cur l))%nat.
Proof.
  revert cur. induction l as [|c l IH]; intros cur; simpl; [lia|].
  destruct (bool_decide (c = sep)); simpl; [lia | apply IH].
Qed.

Lemma omap_all_None {A B} (f : A -> option B) (l : list A) :
  (forall x, f x = None) -> omap f l = [].
Proof. intros Hf. induction l as [|x l IH]; simpl; [reflexivity|]. now rewrite Hf. Qed.

Lemma zip_record_not_header (headers values : list string) (contact : RawRecord) (h : string) :
  h ∉ headers -> zip_record headers values contact !! h = contact !! h.
Proof.
  intros Hnot. apply zip_record_absent. intros Hin. apply Hnot.
  apply list_elem_of_lookup in Hin as [i Hi].
  apply lookup_take_Some in Hi as [Hi _]. apply list_elem_of_lookup. eauto.
Qed.

(** Under the headers of the export no line is accepted by the manual
    parser. *)
Lemma manual_line_export_columns (raw : string) :
  manual_line export_columns raw = None.
Proof.
  unfold manual_line. destruct (negb (truthy (trim raw))); [reflexivity|].
  assert (Hno : forall k, k ∈ identifying_headers ->
            get (zip_record export_columns (tokenize (trim raw)) ∅) k = "").
  { intros k Hk. unfold get. rewrite zip_record_not_header; [now rewrite lookup_empty|].
    unfold identifying_headers in Hk.
    repeat (apply elem_of_cons in Hk as [-> | Hk];
            [apply (bool_decide_unpack _); vm_compute; exact I|]).
    now apply elem_of_nil in Hk. }
  unfold manual_accepts.
  rewrite !Hno by (unfold identifying_headers;
                   repeat first [ apply list_elem_of_here | apply list_elem_of_further ]).
  reflexivity.
Qed.

Lemma export_header_row : join "," (map safe export_columns) = export_header.
Proof. reflexivity. Qed.

Lemma exportContacts_csv_lines (c : Contact) (contacts : list Contact) :
  exists rest,
    split char_nl (exportContacts_csv (c :: contacts))
    = (export_header +:+ String char_cr "") :: split char_nl rest.
Proof.
  unfold exportContacts_csv, Papa_unparse. rewrite export_header_row.
  set (rest := join crlf _). exists rest.
  unfold split, crlf.
  change (export_header +:+ String char_cr (String char_nl "") +:+ rest)
    with (export_header +:+ String char_cr (String char_nl rest)).
  rewrite chars_app.
  change (chars (String char_cr (String char_nl rest)))
    with (char_cr :: char_nl :: chars rest).
  replace (chars export_header ++ char_cr :: char_nl :: chars rest)
    with ((chars export_header ++ [char_cr]) ++ char_nl :: chars rest)
    by (now rewrite <- app_assoc).
  rewrite split_go_first_line.
  - reflexivity.
  - apply (bool_decide_unpack _). vm_compute. exact I.
Qed.

Lemma manualCSVParse_export (c : Contact) (contacts : list Contact) :
  manualCSVParse (exportContacts_csv (c :: contacts)) = Ok [].
Proof.
  unfold manualCSVParse.
  destruct (exportContacts_csv_lines c contacts) as (rest & ->).
  assert (Hlen : (1 <= List.length (split char_nl rest))%nat) by apply split_go_not_nil.
  destruct (List.length _ <? 2)%nat eqn:Hlt.
  { apply Nat.ltb_lt in Hlt. simpl in Hlt. lia. }
  replace (manual_headers _) with export_columns by reflexivity.
  simpl tail. f_equal. apply omap_all_None, manual_line_export_columns.
Qed.

Lemma manualCSVParse_export_nil :
  manualCSVParse (exportContacts_csv []) = Err "CSV has insufficient lines".
Proof. reflexivity. Qed.

Lemma papa_valid_no_identifying_header (r : RawRecord) :
  (forall k, k ∈ identifying_headers -> r !! k = None) -> papa_valid r = false.
Proof.
  intros Hno. unfold papa_valid, has_field, get.
  rewrite !Hno by (unfold identifying_headers;
                   repeat first [ apply list_elem_of_here | apply list_elem_of_further ]).
  simpl. apply andb_false_r.
Qed.

Lemma accepted_rows_export (Papa_parse : PapaProfile -> string -> PapaOutcome)
    (contacts : list Contact) (profile : PapaProfile) :
  keyed_by_export_header Papa_parse contacts ->
  accepted_rows Papa_parse profile (exportContacts_csv contacts) = [].
Proof.
  intros Hkeyed. unfold accepted_rows.
  destruct (Papa_parse profile (exportContacts_csv contacts)) as [results | e] eqn:Hp;
    [|reflexivity].
  specialize (Hkeyed _ _ Hp).
  induction (data results) as [|r rows IH]; [reflexivity|].
  apply Forall_cons in Hkeyed as [Hr Hrows].
  rewrite filter_cons, (papa_valid_no_identifying_header r Hr).
  now apply IH.
Qed.

Lemma exportContacts_csv_nil : exportContacts_csv [] = "".
Proof. reflexivity. Qed.

Lemma manual_headers_export (c : Contact) (contacts : list Contact) :
  manual_headers (split char_nl (exportContacts_csv (c :: contacts))) = export_columns.
Proof. destruct (exportContacts_csv_lines c contacts) as (rest & ->). reflexivity. Qed.

Lemma manualCSVParse_export_accepts_nothing (contacts : list Contact) (rows : list RawRecord) :
  manualCSVParse (exportContacts_csv contacts) = Ok rows -> rows = [].
Proof.
  destruct contacts as [|c contacts].
  - rewrite manualCSVParse_export_nil. discriminate.
  - rewrite manualCSVParse_export. now intros [= <-].
Qed.

Lemma exported_row_other (c : Contact) (k : string) :
  k ∉ export_columns -> exported_row c !! k = None.
Proof.
  intros Hout. apply not_elem_of_list_to_map_1.
  unfold exported_row. rewrite <- list_fmap_compose.
  replace ((fst ∘ (fun column => (column, contact_field c column))) <$> export_columns)
    with export_columns by reflexivity.
  exact Hout.
Qed.

Lemma papa_valid_exported_row (c : Contact) : papa_valid (exported_row c) = false.
Proof.
  apply papa_valid_no_identifying_header. intros k Hk. apply exported_row_other.
  unfold identifying_headers in Hk.
  repeat (apply elem_of_cons in Hk as [-> | Hk];
          [apply (bool_decide_unpack _); vm_compute; exact I|]).
  now apply elem_of_nil in Hk.
Qed.

Lemma exported_rows_read_back (raws : list RawRecord) :
  Forall2 same_exported_fields (map formatContact raws)
          (map formatContact (map exported_row (map formatContact raws))).
Proof.
  induction raws as [|raw raws IH]; [constructor|].
  simpl map. constructor; [apply formatContact_exported_row | exact IH].
Qed.

(** C5 (amended). The normalizer reads back the exported row of every
    contact it produced: formatContact on the ten export columns, keyed by
    the column names of the export, gives a contact equal on name, company,
    email, phone, address, city, state, country, zip and balance (and on id
    when the source record had no id of its own); so whenever Papa.parse
    reads the exported text of such contacts back row for row, the rows it
    returns, once normalized, agree with the contacts on these fields. The
    exported text itself does not pass the structured parser: when
    Papa.parse keys its rows by the exported header row, neither Papa.parse
    strategy accepts a row (the acceptance tests read Name, Email, Phone,
    Company_name, which the export does not write); the manual parser reads
    the export's columns as its headers and accepts no line of the export of
    a list that is not empty, and it refuses the export of the empty list,
    which is the empty text; re-ingestion never yields a contact. *)
Theorem export_then_reingest (Papa_parse : PapaProfile -> string -> PapaOutcome)
    (contacts : list Contact) :
  keyed_by_export_header Papa_parse contacts ->
  (accepted_rows Papa_parse EnhancedStandard (exportContacts_csv contacts) = []
   /\ accepted_rows Papa_parse Relaxed (exportContacts_csv contacts) = []
   /\ match contacts with
      | [] =>
          exportContacts_csv contacts = ""
          /\ manualCSVParse (exportContacts_csv contacts) = Err "CSV has insufficient lines"
      | _ :: _ =>
          manual_headers (split char_nl (exportContacts_csv contacts)) = export_columns
          /\ manualCSVParse (exportContacts_csv contacts) = Ok []
      end
   /\ (forall line, manual_line export_columns line = None)
   /\ (forall result,
         reingest Papa_parse (exportContacts_csv contacts) = Ok result -> result = []))
  /\ (forall raw,
        same_exported_fields (formatContact raw)
          (formatContact (exported_row (formatContact raw)))
        /\ (get raw "id" = "" ->
            contact_id (formatContact (exported_row (formatContact raw)))
            = contact_id (formatContact raw)))
  /\ (forall raws profile results,
        contacts = map formatContact raws ->
        Papa_parse profile (exportContacts_csv contacts) = PapaComplete results ->
        data results = map exported_row contacts ->
        Forall (fun r => papa_valid r = false) (data results)
        /\ Forall2 same_exported_fields contacts (map formatContact (data results))).
Proof.
  intros Hkeyed. split; [|split; [intros raw; apply formatContact_exported_row|]].
  - repeat split.
    + now apply accepted_rows_export.
    + now apply accepted_rows_export.
    + destruct contacts as [|c contacts]; split.
      * apply exportContacts_csv_nil.
      * apply manualCSVParse_export_nil.
      * apply manual_headers_export.
      * apply manualCSVParse_export.
    + apply manual_line_export_columns.
    + intros result. unfold reingest. rewrite parseCSVWithFallbacks_outcome.
      rewrite !accepted_rows_export by assumption.
      destruct (manualCSVParse (exportContacts_csv contacts)) as [rows | e] eqn:Hm;
        [|discriminate].
      intros [= <-]. now rewrite (manualCSVParse_export_accepts_nothing _ _ Hm).
  - intros raws profile results -> _ ->. split.
    + apply Forall_forall. intros r Hr.
      apply list_elem_of_fmap in Hr as (c & -> & _). apply papa_valid_exported_row.
    + apply exported_rows_read_back.
Qed.

Lemma papa_reference_reads_export_back (profile : PapaProfile) :
  papa_reference profile (exportContacts_csv [john_doe])
  = PapaComplete (mkResults [exported_row john_doe] []).
Proof. destruct profile; vm_compute; reflexivity. Qed.

Lemma export_then_reingest_witness :
  keyed_by_export_header papa_reference [john_doe]
  /\ accepted_rows papa_reference EnhancedStandard (exportContacts_csv [john_doe]) = []
  /\ (forall result,
        reingest papa_reference (exportContacts_csv [john_doe]) = Ok result -> result = [])
  /\ same_exported_fields john_doe (formatContact (exported_row john_doe))
  /\ (exists results,
        papa_reference EnhancedStandard (exportContacts_csv [john_doe]) = PapaComplete results
        /\ Forall2 same_exported_fields [john_doe] (map formatContact (data results))).
Proof.
  assert (Hkeyed : keyed_by_export_header papa_reference [john_doe]).
  { intros profile results Hp.
    rewrite papa_reference_reads_export_back in Hp. injection Hp as <-.
    constructor; [|constructor].
    intros k Hk. unfold identifying_headers in Hk.
    repeat (apply elem_of_cons in Hk as [-> | Hk]; [vm_compute; reflexivity|]).
    now apply elem_of_nil in Hk. }
  split; [exact Hkeyed|].
  destruct (export_then_reingest papa_reference [john_doe] Hkeyed)
    as [(Hstrict & _ & _ & _ & Hre) [Hrows Hback]].
  split; [exact Hstrict|]. split; [exact Hre|].
  split.
  - exact (proj1 (Hrows (local_row "John Doe" "Tech Corp" "john.doe@email.com" "555-012-3456"
                                   "New York" "USA"))).
  - exists (mkResults [exported_row john_doe] []).
    split; [apply papa_reference_reads_export_back|].
    exact (proj2 (Hback [local_row "John Doe" "Tech Corp" "john.doe@email.com" "555-012-3456"
                                   "New York" "USA"]
                        EnhancedStandard (mkResults [exported_row john_doe] [])
                        eq_refl (papa_reference_reads_export_back EnhancedStandard) eq_refl)).
Defined.

(** C5, as stated, fails: a single valid contact, exported and re-ingested
    through the structured parser, comes back as no contact at all, although
    Papa.parse reads its row back under the column names of the export. *)
Lemma export_round_trip_loses_the_contacts :
  Forall (fun c => meaningful c = true) [john_doe]
  /\ contact_phone john_doe = "(555) 012-3456"
  /\ papa_reference EnhancedStandard (exportContacts_csv [john_doe])
     = PapaComplete (mkResults [exported_row john_doe] [])
  /\ papa_valid (exported_row john_doe) = false
  /\ reingest papa_reference (exportContacts_csv [john_doe]) = Ok []
  /\ List.length [john_doe] = 1%nat.
Proof. vm_compute. repeat split. repeat constructor. Qed.

(* ===================================================================== *)
(** ** Further properties of the pipeline *)
(* ===================================================================== *)

(** The strategies of parseCSVWithFallbacks run in their fixed order and the
    first one that accepts a row decides: the accepted rows of the first
    profile, else those of the second, else the outcome of manualCSVParse
    (its error replaced by the error of the parser); the log is the list of
    the strategies tried, in order. *)
Theorem parseCSVWithFallbacks_first_accepting_strategy
    (Papa_parse : PapaProfile -> string -> PapaOutcome) (csvText : string) :
  (parseCSVWithFallbacks Papa_parse csvText).1
  = match accepted_rows Papa_parse EnhancedStandard csvText with
    | (_ :: _) as rows => Ok rows
    | [] =>
        match accepted_rows Papa_parse Relaxed csvText with
        | (_ :: _) as rows => Ok rows
        | [] =>
            match manualCSVParse csvText with
            | Ok rows => Ok rows
            | Err _ => Err "All parsing strategies failed"
            end
        end
    end
  /\ exists n, (1 <= n <= 3)%nat
               /\ (parseCSVWithFallbacks Papa_parse csvText).2 = map EvParse (take n strategies).
Proof.
  split; [apply parseCSVWithFallbacks_outcome|].
  destruct (parseCSVWithFallbacks_events Papa_parse csvText) as (n & Hn & Hle).
  exists (n `min` 3)%nat. split; [lia|].
  rewrite Hn. f_equal. unfold strategies.
  destruct n as [|[|[|[|n]]]]; reflexivity.
Qed.

(** A text that was fetched goes to the parser once, and the outcome of the
    parser is the outcome of fetchCSVFromURL: a parse error is not followed
    by another attempt. *)
Theorem fetchCSVFromURL_parse_error_is_not_retried
    (Papa_parse : PapaProfile -> string -> PapaOutcome) (w : World) (url : string)
    (attempt : nat) (statusText csvText : string) (status : nat) :
  w_fetch w url attempt = HttpResponse status statusText (Ok csvText) ->
  response_ok status = true ->
  (100 <= String.length csvText)%nat ->
  fetchCSVFromURL Papa_parse w url attempt
  = after [EvFetch url attempt] (parseCSVWithFallbacks Papa_parse csvText)
  /\ fetched_attempts (fetchCSVFromURL Papa_parse w url attempt).2 = [attempt]
  /\ delays (fetchCSVFromURL Papa_parse w url attempt).2 = [].
Proof.
  intros Hw Hok Hlen.
  assert (Hf : fetch_text w url attempt = (Ok csvText, [EvFetch url attempt])).
  { unfold fetch_text. rewrite Hw, Hok. simpl negb. cbv iota.
    apply Nat.ltb_ge in Hlen. unfold lift, bind, after, emit. simpl. now rewrite Hlen. }
  rewrite (fetchCSVFromURL_fetched _ _ _ _ _ _ Hf). split; [reflexivity|].
  destruct (parseCSVWithFallbacks_events Papa_parse csvText) as (n & Hn & _).
  unfold after. simpl. rewrite Hn. unfold strategies.
  destruct n as [|[|[|[|n]]]]; split; reflexivity.
Qed.

Lemma fetchCSVFromURL_parse_error_is_not_retried_witness :
  fetchCSVFromURL papa_reference world_one_line (csvUrl app_config) 1
  = (Err "All parsing strategies failed",
     [EvFetch (csvUrl app_config) 1; EvParse (PapaStrategy EnhancedStandard);
      EvParse (PapaStrategy Relaxed); EvParse Manual])
  /\ fetched_attempts
       (fetchCSVFromURL papa_reference world_one_line (csvUrl app_config) 1).2 = [1%nat].
Proof.
  destruct (fetchCSVFromURL_parse_error_is_not_retried papa_reference world_one_line
              (csvUrl app_config) 1 "OK" one_line_text 200)
    as (Hrun & Hattempts & _).
  - reflexivity.
  - reflexivity.
  - vm_compute. lia.
  - split; [|exact Hattempts]. rewrite Hrun. vm_compute. reflexivity.
Defined.

(** formatPhone is idempotent: a formatted phone is left as it is. *)
Theorem formatPhone_formats_once (phone : string) :
  formatPhone (formatPhone phone) = formatPhone phone.
Proof. apply formatPhone_idempotent. Qed.

(** downloadAndCacheCSV and the freshness window of ten minutes: with a
    sidecar younger than the window the stored text is served and nothing is
    downloaded; with a sidecar as old as the window or older (or one whose
    timestamp is not a number) a download is attempted first. *)
Theorem downloadAndCacheCSV_freshness (url : string) (fs : FileSystemWorld)
    (cacheAge : option Z) :
  fs_info_exists fs = Ok true ->
  fs_cache_age fs = Ok cacheAge ->
  match cacheAge with
  | Some age =>
      (age < 600000 ->
       forall cachedData, fs_cached_data fs = Ok cachedData ->
         downloadAndCacheCSV url fs
         = (Ok cachedData,
            [EvStorage cacheInfoUri; EvStorage cacheInfoUri; EvStorage cacheFileUri]))
      /\ (600000 <= age -> EvDownload url ∈ (downloadAndCacheCSV url fs).2)
  | None => EvDownload url ∈ (downloadAndCacheCSV url fs).2
  end.
Proof.
  intros Hinfo Hage.
  assert (Hstale : match cacheAge with Some age => 600000 <= age | None => True end ->
                   EvDownload url ∈ (downloadAndCacheCSV url fs).2).
  { intros Hold. unfold downloadAndCacheCSV, call, lift, bind, try_catch, after.
    rewrite Hinfo, Hage. simpl.
    assert (Hskip : match cacheAge with
                    | Some age => (age <? 600000) = false
                    | None => True
                    end).
    { destruct cacheAge; [now apply Z.ltb_ge | exact I]. }
    destruct cacheAge as [age|]; [rewrite Hskip|]; simpl;
      (destruct (fs_download fs) as [status | e]; simpl;
       [ destruct (status =? 200)%nat; simpl;
         [ destruct (fs_write_info fs); simpl;
           [ destruct (fs_downloaded_data fs); simpl | ] | ] | ]);
      repeat match goal with
             | |- context [fs_file_exists fs] => destruct (fs_file_exists fs) as [[|] | ?]; simpl
             | |- context [fs_stale_data fs] => destruct (fs_stale_data fs); simpl
             end;
      set_solver. }
  destruct cacheAge as [age|]; [|now apply Hstale].
  split; [|exact Hstale].
  intros Hfresh cachedData Hdata.
  unfold downloadAndCacheCSV, call, lift, bind, try_catch, after.
  rewrite Hinfo, Hage. simpl.
  apply Z.ltb_lt in Hfresh. rewrite Hfresh, Hdata. reflexivity.
Qed.

Lemma downloadAndCacheCSV_freshness_witness :
  (downloadAndCacheCSV (csvUrl app_config) fs_fresh_sidecar
   = (Ok localCSVData,
      [EvStorage cacheInfoUri; EvStorage cacheInfoUri; EvStorage cacheFileUri]))
  /\ EvDownload (csvUrl app_config)
     ∈ (downloadAndCacheCSV (csvUrl app_config) fs_stale_sidecar).2.
Proof.
  split.
  - refine (proj1 (downloadAndCacheCSV_freshness (csvUrl app_config) fs_fresh_sidecar
                     (Some (9 * 60 * 1000)) eq_refl eq_refl) _ localCSVData eq_refl).
    reflexivity.
  - refine (proj2 (downloadAndCacheCSV_freshness (csvUrl app_config) fs_stale_sidecar
                     (Some (11 * 60 * 1000)) eq_refl eq_refl) _).
    apply Z.leb_le. reflexivity.
Defined.

(** After clearContactsCache, and on a forced refresh, getContacts does not
    serve the snapshot. *)
Theorem cache_miss_after_invalidation (now : Z) (forceRefresh : bool) (st : State) :
  cache_hit now forceRefresh (clearContactsCache st) = None
  /\ cache_hit now true st = None.
Proof.
  split; [reflexivity|].
  unfold cache_hit. now destruct (cachedContacts st).
Qed.

(** The scenario of the specification: the text Name,Email / John Doe,john@x.com
    is read as one row, and the row is formatted into the contact John Doe
    with the id John_Doe_john@x.com and an empty phone. *)
Example scenario_name_email :
  let csvText := "Name,Email" +:+ String char_nl "John Doe,john@x.com" +:+ String char_nl "" in
  exists row,
    (parseCSVWithFallbacks papa_reference csvText).1 = Ok [row]
    /\ (parseCSVWithFallbacks papa_reference csvText).2 = [EvParse (PapaStrategy EnhancedStandard)]
    /\ contact_name (formatContact row) = "John Doe"
    /\ contact_email (formatContact row) = "john@x.com"
    /\ contact_id (formatContact row) = "John_Doe_john@x.com"
    /\ contact_phone (formatContact row) = "".
Proof.
  exists {[ "Name" := "John Doe"; "Email" := "john@x.com" ]}.
  vm_compute. repeat split.
Qed.
(* ===================================================================== *)
(** ** The reference parser on the bundled sample *)
(* ===================================================================== *)

Lemma papa_reference_enhanced_sample :
  papa_reference EnhancedStandard localCSVData = PapaComplete (mkResults localRows []).
Proof. vm_compute; reflexivity. Qed.

Lemma papa_valid_localRows : filter (fun c => papa_valid c = true) localRows = localRows.
Proof. unfold localRows. repeat (rewrite filter_cons_True by reflexivity). reflexivity. Qed.

Lemma parseCSVWithFallbacks_reference_sample :
  parseCSVWithFallbacks papa_reference localCSVData
  = (Ok localRows, [EvParse (PapaStrategy EnhancedStandard)]).
Proof.
  unfold parseCSVWithFallbacks, strategies. cbn [try_strategies].
  rewrite run_strategy_papa. unfold accepted_rows.
  rewrite papa_reference_enhanced_sample. cbn [data]. rewrite papa_valid_localRows.
  reflexivity.
Qed.

Lemma filter_all {A} (P : A -> Prop) `{forall x, Decision (P x)} (l : list A) :
  Forall P l -> filter P l = l.
Proof.
  induction 1 as [|x l Hx Hl IH]; [reflexivity|].
  rewrite filter_cons_True by assumption. now rewrite IH.
Qed.


(* ===================================================================== *)
(** ** fetchCSVFromURL: attempts, delays and causes *)
(* ===================================================================== *)

Lemma fetch_text_events (w : World) (url : string) (attempt : nat) :
  (fetch_text w url attempt).2 = [EvFetch url attempt].
Proof.
  unfold fetch_text.
  destruct (w_fetch w url attempt) as [e | status statusText [csvText | e]]; simpl;
    try reflexivity.
  - destruct (negb (response_ok status)); simpl; [reflexivity|].
    now destruct (String.length csvText <? 100)%nat.
  - now destruct (negb (response_ok status)).
Qed.

Lemma fetch_text_outcome (w : World) (url : string) (attempt : nat) :
  fetch_text w url attempt = ((fetch_text w url attempt).1, [EvFetch url attempt]).
Proof. rewrite <- (fetch_text_events w url attempt). now destruct (fetch_text w url attempt). Qed.

Lemma fetched_attempts_app (t1 t2 : list Event) :
  fetched_attempts (t1 ++ t2) = fetched_attempts t1 ++ fetched_attempts t2.
Proof. apply omap_app. Qed.

Lemma delays_app (t1 t2 : list Event) : delays (t1 ++ t2) = delays t1 ++ delays t2.
Proof. apply omap_app. Qed.

Lemma parse_events_no_fetch (Papa_parse : PapaProfile -> string -> PapaOutcome)
    (csvText : string) :
  fetched_attempts (parseCSVWithFallbacks Papa_parse csvText).2 = []
  /\ delays (parseCSVWithFallbacks Papa_parse csvText).2 = [].
Proof.
  destruct (parseCSVWithFallbacks_events Papa_parse csvText) as (n & -> & _).
  unfold strategies. destruct n as [|[|[|[|n]]]]; split; reflexivity.
Qed.

Section FetcherAttempts.

Variable Papa_parse : PapaProfile -> string -> PapaOutcome.

(** What a call at [attempt] does with the outcome of its fetch. *)
Lemma fetchCSVFromURL_step (w : World) (url : string) (attempt : nat) :
  fetchCSVFromURL Papa_parse w url attempt
  = match (fetch_text w url attempt).1 with
    | Ok csvText =>
        after [EvFetch url attempt] (parseCSVWithFallbacks Papa_parse csvText)
    | Err error =>
        if decide (attempt < maxAttempts)%nat
        then after [EvFetch url attempt; EvAttemptFailed attempt error;
                    EvSleep (retryDelay attempt)]
                   (fetchCSVFromURL Papa_parse w url (S attempt))
        else (Err ("Failed to fetch CSV after 3 attempts: " +:+ error),
              [EvFetch url attempt; EvAttemptFailed attempt error])
    end.
Proof.
  pose proof (fetch_text_outcome w url attempt) as Hf.
  destruct (fetch_text w url attempt).1 as [csvText | error].
  - apply (fetchCSVFromURL_fetched Papa_parse _ _ _ _ _ Hf).
  - destruct (decide (attempt < maxAttempts)%nat) as [Hlt | Hge].
    + apply (fetchCSVFromURL_retry Papa_parse _ _ _ _ _ Hf Hlt).
    + apply (fetchCSVFromURL_give_up Papa_parse _ _ _ _ _ Hf Hge).
Qed.


(** When every attempt fails before the parser is reached (the network, a
    status that is not ok, a body that cannot be read or is shorter than 100
    characters), the call makes its three attempts and its error carries
    the cause of the last one. *)
Theorem fetchCSVFromURL_carries_the_last_cause (w : World) (url : string) :
  (forall attempt, exists error, (fetch_text w url attempt).1 = Err error) ->
  exists last,
    (fetch_text w url 3).1 = Err last
    /\ fetchCSVFromURL Papa_parse w url 1
       = (Err ("Failed to fetch CSV after 3 attempts: " +:+ last),
          (fetchCSVFromURL Papa_parse w url 1).2)
    /\ fetched_attempts (fetchCSVFromURL Papa_parse w url 1).2 = [1; 2; 3]%nat
    /\ delays (fetchCSVFromURL Papa_parse w url 1).2 = [1000; 2000].
Proof.
  intros Hall.
  destruct (Hall 1%nat) as (e1 & H1), (Hall 2%nat) as (e2 & H2), (Hall 3%nat) as (e3 & H3).
  exists e3. split; [exact H3|].
  rewrite (fetchCSVFromURL_step w url 1), H1.
  destruct (decide (1 < maxAttempts)%nat) as [_|Hn]; [|unfold maxAttempts in Hn; lia].
  rewrite (fetchCSVFromURL_step w url 2), H2.
  destruct (decide (2 < maxAttempts)%nat) as [_|Hn]; [|unfold maxAttempts in Hn; lia].
  rewrite (fetchCSVFromURL_step w url 3), H3.
  destruct (decide (3 < maxAttempts)%nat) as [Hn|_]; [unfold maxAttempts in Hn; lia|].
  repeat split.
Qed.

(** A failure of the first attempt is made good by the second: the text it
    fetches goes to the parser, whose outcome is the outcome of the call,
    after a single delay of 1000 ms. *)
Theorem fetchCSVFromURL_recovers_on_the_second_attempt (w : World) (url : string)
    (error : Error) (csvText : string) :
  (fetch_text w url 1).1 = Err error ->
  (fetch_text w url 2).1 = Ok csvText ->
  (fetchCSVFromURL Papa_parse w url 1).1 = (parseCSVWithFallbacks Papa_parse csvText).1
  /\ fetched_attempts (fetchCSVFromURL Papa_parse w url 1).2 = [1; 2]%nat
  /\ delays (fetchCSVFromURL Papa_parse w url 1).2 = [1000].
Proof.
  intros H1 H2.
  rewrite (fetchCSVFromURL_step w url 1), H1.
  destruct (decide (1 < maxAttempts)%nat) as [_|Hn]; [|unfold maxAttempts in Hn; lia].
  rewrite (fetchCSVFromURL_step w url 2), H2.
  unfold after. cbn [fst snd].
  rewrite !fetched_attempts_app, !delays_app.
  destruct (parse_events_no_fetch Papa_parse csvText) as [-> ->].
  repeat split.
Qed.

End FetcherAttempts.

Lemma fetchCSVFromURL_carries_the_last_cause_witness :
  (forall attempt, exists error,
     (fetch_text world_small_body (csvUrl app_config) attempt).1 = Err error)
  /\ (fetchCSVFromURL papa_reference world_small_body (csvUrl app_config) 1).1
     = Err "Failed to fetch CSV after 3 attempts: CSV file appears to be empty or too small".
Proof.
  assert (Hall : forall attempt, exists error,
            (fetch_text world_small_body (csvUrl app_config) attempt).1 = Err error).
  { intros attempt. eexists. reflexivity. }
  split; [exact Hall|].
  destruct (fetchCSVFromURL_carries_the_last_cause papa_reference world_small_body
              (csvUrl app_config) Hall) as (last & Hlast & Hrun & _).
  rewrite Hrun. cbn [fst]. injection Hlast as <-. reflexivity.
Defined.

Lemma fetchCSVFromURL_recovers_on_the_second_attempt_witness :
  (fetchCSVFromURL papa_reference world_recovers (csvUrl app_config) 1).1 = Ok localRows
  /\ delays (fetchCSVFromURL papa_reference world_recovers (csvUrl app_config) 1).2 = [1000].
Proof.
  destruct (fetchCSVFromURL_recovers_on_the_second_attempt papa_reference world_recovers
              (csvUrl app_config) "Network request failed" localCSVData eq_refl eq_refl)
    as (Hrun & _ & Hdelays).
  split; [|exact Hdelays].
  rewrite Hrun. now rewrite parseCSVWithFallbacks_reference_sample.
Defined.

(* ===================================================================== *)
(** ** manualCSVParse: lines and values *)
(* ===================================================================== *)

Lemma split_go_length (sep : ascii) (l cur : list ascii) :
  List.length (split_go sep cur l) = S (List.length (filter (fun c => c = sep) l)).
Proof.
  revert cur. induction l as [|c l IH]; intros cur; simpl; [reflexivity|].
  rewrite filter_cons. destruct (decide (c = sep)) as [-> | Hne].
  - rewrite bool_decide_eq_true_2 by reflexivity. simpl. now rewrite IH.
  - rewrite bool_decide_eq_false_2 by assumption. apply IH.
Qed.

Lemma omap_length_le {A B} (f : A -> option B) (l : list A) :
  (List.length (omap f l) <= List.length l)%nat.
Proof.
  induction l as [|x l IH]; simpl; [lia|].
  change (list_omap A B f l) with (omap f l). destruct (f x); simpl; lia.
Qed.

(** manualCSVParse throws exactly on a text with no line feed (the empty
    text, a lone header row); on any other text it returns records, at
    most one per line feed. A header row followed by a line feed and nothing
    else gives the empty list. *)
Theorem manualCSVParse_needs_a_line_feed (csvText : string) :
  match manualCSVParse csvText with
  | Err e => line_feeds csvText = 0%nat /\ e = "CSV has insufficient lines"
  | Ok rs => (1 <= line_feeds csvText)%nat /\ (List.length rs <= line_feeds csvText)%nat
  end.
Proof.
  unfold manualCSVParse, split, line_feeds.
  pose proof (split_go_length char_nl (chars csvText) []) as Hlen.
  remember (split_go char_nl [] (chars csvText)) as lines eqn:Hlines.
  destruct (List.length lines <? 2)%nat eqn:Hlt.
  - apply Nat.ltb_lt in Hlt. split; [lia | reflexivity].
  - apply Nat.ltb_ge in Hlt. split; [lia|].
    etransitivity; [apply omap_length_le|].
    destruct lines; simpl in *; lia.
Qed.

Lemma elem_of_drop_while (f : ascii -> bool) (l : list ascii) (c : ascii) :
  c ∈ drop_while f l -> c ∈ l.
Proof.
  induction l as [|d l IH]; simpl; [easy|].
  destruct (f d); [|easy]. intros H. apply list_elem_of_further. now apply IH.
Qed.

Lemma elem_of_rev (l : list ascii) (c : ascii) : c ∈ rev l <-> c ∈ l.
Proof. rewrite !list_elem_of_In. symmetry. apply in_rev. Qed.

Lemma elem_of_trim_chars (l : list ascii) (c : ascii) : c ∈ trim_chars l -> c ∈ l.
Proof.
  unfold trim_chars. intros H.
  apply elem_of_rev, elem_of_drop_while, elem_of_rev, elem_of_drop_while in H.
  exact H.
Qed.

Lemma elem_of_trim (s : string) (c : ascii) : c ∈ chars (trim s) -> c ∈ chars s.
Proof. unfold trim. rewrite chars_str. apply elem_of_trim_chars. Qed.

Lemma elem_of_strip_outer_quotes (s : string) (c : ascii) :
  c ∈ chars (strip_outer_quotes s) -> c ∈ chars s.
Proof.
  unfold strip_outer_quotes. rewrite chars_str.
  set (l := match chars s with
            | c0 :: r => if bool_decide (c0 = char_quote) then r else c0 :: r
            | [] => []
            end).
  assert (Hl : forall x, x ∈ l -> x ∈ chars s).
  { subst l. destruct (chars s) as [|c0 r]; [easy|].
    destruct (bool_decide (c0 = char_quote)); [|easy]. intros x Hx.
    now apply list_elem_of_further. }
  intros H. apply Hl.
  destruct (rev l) as [|d r] eqn:Hrev; [now apply elem_of_nil in H|].
  destruct (bool_decide (d = char_quote)); [|exact H].
  apply (proj1 (elem_of_rev r c)) in H.
  apply (proj1 (elem_of_rev l c)). rewrite Hrev. apply list_elem_of_further. exact H.
Qed.

Lemma finish_value_no_quote (current : list ascii) :
  char_quote ∉ current -> char_quote ∉ chars (finish_value current).
Proof.
  intros Hno Hin. apply Hno. unfold finish_value in Hin.
  apply elem_of_strip_outer_quotes, elem_of_trim in Hin. now rewrite chars_str in Hin.
Qed.

Lemma tokenize_go_no_quote (line : list ascii) (values : list string) (current : list ascii)
    (inQuotes : bool) :
  Forall (fun v => char_quote ∉ chars v) values ->
  char_quote ∉ current ->
  Forall (fun v => char_quote ∉ chars v) (tokenize_go line values current inQuotes).
Proof.
  revert values current inQuotes.
  induction line as [|c line IH]; intros values current inQuotes Hvalues Hcurrent; simpl.
  - apply Forall_app. split; [exact Hvalues|].
    constructor; [now apply finish_value_no_quote | constructor].
  - destruct (bool_decide (c = char_quote)) eqn:Hq; [now apply IH|].
    apply bool_decide_eq_false in Hq.
    destruct (bool_decide (c = char_comma) && negb inQuotes).
    + apply IH; [|apply not_elem_of_nil].
      apply Forall_app. split; [exact Hvalues|].
      constructor; [now apply finish_value_no_quote | constructor].
    + apply IH; [exact Hvalues|].
      intros Hin. apply elem_of_app in Hin as [Hin | Hin]; [now apply Hcurrent|].
      apply list_elem_of_singleton in Hin. congruence.
Qed.

(** No value the tokenizer of manualCSVParse returns holds a double quote:
    the quotes of a line toggle the quote state and are dropped, a doubled
    quote inside a quoted value included. *)
Theorem tokenize_drops_every_quote (line : string) :
  Forall (fun v => char_quote ∉ chars v) (tokenize line).
Proof.
  unfold tokenize. apply tokenize_go_no_quote; [constructor | apply not_elem_of_nil].
Qed.

Example tokenize_quoted_line : tokenize quoted_line = ["Doe, John"; "say hi"].
Proof. reflexivity. Qed.

Lemma strip_outer_quotes_no_quote (s : string) :
  char_quote ∉ chars s -> strip_outer_quotes s = s.
Proof.
  unfold strip_outer_quotes. intros Hno.
  destruct (chars s) as [|c r] eqn:Hs.
  - simpl. rewrite <- (str_chars s), Hs. reflexivity.
  - rewrite bool_decide_eq_false_2
      by (intros ->; apply Hno; apply list_elem_of_here).
    destruct (rev (c :: r)) as [|d r'] eqn:Hrev.
    + apply (f_equal (@rev ascii)) in Hrev. rewrite rev_involutive in Hrev. discriminate.
    + rewrite bool_decide_eq_false_2.
      * rewrite <- (str_chars s), Hs. reflexivity.
      * intros ->. apply Hno. apply elem_of_rev. rewrite Hrev. apply list_elem_of_here.
Qed.

Lemma elem_of_split_go (sep : ascii) (l cur : list ascii) (piece : string) (c : ascii) :
  piece ∈ split_go sep cur l -> c ∈ chars piece -> c ∈ cur \/ c ∈ l.
Proof.
  revert cur. induction l as [|d l IH]; intros cur Hpiece Hc; simpl in Hpiece.
  - apply list_elem_of_singleton in Hpiece as ->. rewrite chars_str in Hc.
    left. now apply elem_of_rev.
  - destruct (bool_decide (d = sep)).
    + apply elem_of_cons in Hpiece as [-> | Hpiece].
      * rewrite chars_str in Hc. left. now apply elem_of_rev.
      * destruct (IH [] Hpiece Hc) as [H | H]; [now apply elem_of_nil in H|].
        right. now apply list_elem_of_further.
    + destruct (IH (d :: cur) Hpiece Hc) as [H | H].
      * apply elem_of_cons in H as [-> | H]; [right; apply list_elem_of_here | now left].
      * right. now apply list_elem_of_further.
Qed.

(** On a line without double quotes the tokenizer and split agree once the
    current value is the reversed accumulator. *)
Lemma tokenize_go_split_go (line : list ascii) (values : list string) (current : list ascii) :
  char_quote ∉ line ->
  tokenize_go line values current false
  = values ++ map (fun piece => strip_outer_quotes (trim piece))
                  (split_go char_comma (rev current) line).
Proof.
  revert values current. induction line as [|c line IH]; intros values current Hno; simpl.
  - now rewrite rev_involutive.
  - apply not_elem_of_cons in Hno as [Hc Hno].
    rewrite bool_decide_eq_false_2 by congruence.
    destruct (bool_decide (c = char_comma)); simpl.
    + rewrite IH by assumption. rewrite rev_involutive. simpl.
      now rewrite <- app_assoc.
    + rewrite IH by assumption. now rewrite rev_app_distr.
Qed.

(** On a line that holds no double quote the tokenizer of manualCSVParse is
    split on commas followed by trim: one value per comma and one more,
    empty values kept. *)
Theorem tokenize_without_quotes (line : string) :
  char_quote ∉ chars line ->
  tokenize line = map trim (split char_comma line).
Proof.
  intros Hno. unfold tokenize, split.
  rewrite tokenize_go_split_go by assumption. simpl.
  apply map_ext_in. intros piece Hpiece.
  apply strip_outer_quotes_no_quote. intros Hq.
  apply elem_of_trim in Hq. apply list_elem_of_In in Hpiece.
  destruct (elem_of_split_go _ _ _ _ _ Hpiece Hq) as [H | H];
    [now apply elem_of_nil in H | contradiction].
Qed.

Lemma tokenize_without_quotes_witness :
  (char_quote ∉ chars "John Doe , ,+1-555-0123,")
  /\ tokenize "John Doe , ,+1-555-0123," = ["John Doe"; ""; "+1-555-0123"; ""].
Proof.
  assert (Hno : char_quote ∉ chars "John Doe , ,+1-555-0123,")
    by (apply (bool_decide_unpack _); vm_compute; exact I).
  split; [exact Hno|].
  rewrite (tokenize_without_quotes _ Hno). reflexivity.
Defined.

(* ===================================================================== *)
(** ** formatContact *)
(* ===================================================================== *)

Lemma js_or_eq_empty (a b : string) : a <||> b = "" <-> a = "" /\ b = "".
Proof. destruct a; simpl; [tauto|]. split; [discriminate | intros [? _]; discriminate]. Qed.

Lemma js_or_cases (a b : string) : (a = "" /\ a <||> b = b) \/ (a <> "" /\ a <||> b = a).
Proof. destruct a; [left | right]; easy. Qed.

Lemma formatPhone_eq_empty (phone : string) : formatPhone phone = "" <-> phone = "".
Proof.
  split; [|now intros ->].
  unfold formatPhone. destruct phone as [|c phone]; [easy|]. simpl negb. cbv iota.
  destruct (String.length _ =? 10)%nat eqn:Hlen; [|easy].
  apply Nat.eqb_eq in Hlen. unfold regroup_digits.
  assert (Hl : List.length (chars (strip_non_digits (String c phone))) = 10%nat).
  { rewrite <- Hlen. unfold strip_non_digits. now rewrite chars_str, length_str. }
  rewrite Hl. simpl. discriminate.
Qed.

(** The name of a formatted contact is never empty: it is the value of one
    of the five headers the name is read from, or the placeholder. *)
Theorem formatContact_name_is_never_empty (raw : RawRecord) :
  contact_name (formatContact raw) <> ""
  /\ (contact_name (formatContact raw) = "Unknown Contact"
      \/ contact_name (formatContact raw) ∈ map (get raw) name_aliases)
  /\ (Forall (fun k => get raw k = "") name_aliases <->
      contact_name (formatContact raw) ∉ map (get raw) name_aliases).
Proof.
  split; [apply getName_not_empty|].
  simpl contact_name. unfold getName, name_aliases. simpl map.
  rewrite !Forall_cons, Forall_nil.
  destruct (js_or_cases (get raw "Name")
              (get raw "name" <||> get raw "Company_name" <||> get raw "Company name"
               <||> get raw "company" <||> "Unknown Contact")) as [[E1 ->] | [N1 ->]];
    [|split; [right; set_solver | split; [tauto | set_solver]]].
  destruct (js_or_cases (get raw "name")
              (get raw "Company_name" <||> get raw "Company name"
               <||> get raw "company" <||> "Unknown Contact")) as [[E2 ->] | [N2 ->]];
    [|split; [right; set_solver | split; [tauto | set_solver]]].
  destruct (js_or_cases (get raw "Company_name")
              (get raw "Company name" <||> get raw "company" <||> "Unknown Contact"))
    as [[E3 ->] | [N3 ->]];
    [|split; [right; set_solver | split; [tauto | set_solver]]].
  destruct (js_or_cases (get raw "Company name") (get raw "company" <||> "Unknown Contact"))
    as [[E4 ->] | [N4 ->]];
    [|split; [right; set_solver | split; [tauto | set_solver]]].
  destruct (js_or_cases (get raw "company") "Unknown Contact") as [[E5 ->] | [N5 ->]];
    [|split; [right; set_solver | split; [tauto | set_solver]]].
  split; [now left|]. rewrite E1, E2, E3, E4, E5.
  split; [intros _ | tauto].
  rewrite !elem_of_cons, elem_of_nil. intros H. decompose [or] H; first [discriminate | contradiction].
Qed.

(** A record with no name header takes the name of its company when one of
    the first three company headers (Company_name, Company name, company)
    is filled: name and company are then the first of them that is filled.
    When none of the three is, the name is the placeholder and the company
    is read from organisation, else Company. *)
Theorem formatContact_name_without_a_name_header (raw : RawRecord) :
  get raw "Name" = "" -> get raw "name" = "" ->
  (get raw "Company_name" <||> get raw "Company name" <||> get raw "company" <> "" ->
   contact_name (formatContact raw)
   = get raw "Company_name" <||> get raw "Company name" <||> get raw "company"
   /\ contact_company (formatContact raw)
      = get raw "Company_name" <||> get raw "Company name" <||> get raw "company")
  /\ (get raw "Company_name" <||> get raw "Company name" <||> get raw "company" = "" ->
      contact_name (formatContact raw) = "Unknown Contact"
      /\ contact_company (formatContact raw)
         = get raw "organisation" <||> get raw "Company").
Proof.
  intros E1 E2. simpl. unfold getName, getCompany. rewrite E1, E2, !js_or_empty_l.
  split.
  - intros Hfilled.
    destruct (js_or_cases (get raw "Company_name")
                (get raw "Company name" <||> get raw "company")) as [[E3 H3] | [N3 H3]].
    + rewrite E3, !js_or_empty_l in *.
      destruct (js_or_cases (get raw "Company name") (get raw "company"))
        as [[E4 H4] | [N4 H4]].
      * rewrite E4, !js_or_empty_l in *. now rewrite !(js_or_left _ _ Hfilled).
      * now rewrite !(js_or_left _ _ N4).
    + now rewrite !(js_or_left _ _ N3).
  - intros Hnone.
    apply js_or_eq_empty in Hnone as [E3 Hnone].
    apply js_or_eq_empty in Hnone as [E4 E5].
    rewrite E3, E4, E5, !js_or_empty_l. split; [reflexivity|].
    now rewrite js_or_empty_r.
Qed.

Lemma formatContact_name_without_a_name_header_witness :
  (contact_name (formatContact organisation_record) = "Unknown Contact"
   /\ contact_company (formatContact organisation_record) = "Tech Corp"
   /\ meaningful (formatContact organisation_record) = true)
  /\ (contact_name (formatContact company_record) = "Acme"
      /\ contact_company (formatContact company_record) = "Acme").
Proof.
  split.
  - destruct (proj2 (formatContact_name_without_a_name_header organisation_record
                       eq_refl eq_refl) eq_refl) as [Hname Hcompany].
    split; [exact Hname|]. split; [rewrite Hcompany|]; reflexivity.
  - assert (Hfilled : get company_record "Company_name" <||> get company_record "Company name"
                      <||> get company_record "company" <> "") by discriminate.
    destruct (proj1 (formatContact_name_without_a_name_header company_record
                       eq_refl eq_refl) Hfilled) as [Hname Hcompany].
    split; [rewrite Hname | rewrite Hcompany]; reflexivity.
Defined.

Lemma underscore_each_space_no_space (s : string) :
  Forall (fun c => is_space c = false) (chars (underscore_each_space s)).
Proof.
  unfold underscore_each_space. rewrite chars_str.
  apply Forall_forall. intros c Hc. apply list_elem_of_fmap in Hc as (d & -> & _).
  destruct (is_space d) eqn:Hd; [reflexivity | exact Hd].
Qed.

Lemma length_append (a b : string) :
  String.length (a +:+ b) = (String.length a + String.length b)%nat.
Proof. induction a; simpl; [reflexivity | now rewrite IHa]. Qed.

Lemma length_chars (s : string) : List.length (chars s) = String.length s.
Proof. induction s; simpl; [reflexivity | now rewrite IHs]. Qed.

(** The id of a record that has none of its own is built from the name and
    the email: it holds no whitespace, it is as long as the two and the
    underscore between them, and it is never empty. *)
Theorem formatContact_derived_id (raw : RawRecord) :
  get raw "id" = "" ->
  Forall (fun c => is_space c = false) (chars (contact_id (formatContact raw)))
  /\ String.length (contact_id (formatContact raw))
     = (String.length (contact_name (formatContact raw)) + 1
        + String.length (contact_email (formatContact raw)))%nat
  /\ contact_id (formatContact raw) <> "".
Proof.
  intros Hid. simpl. rewrite Hid, js_or_empty_l.
  split; [apply underscore_each_space_no_space|].
  assert (Hlen : String.length (underscore_each_space (getName raw +:+ "_" +:+ getEmail raw))
                 = (String.length (getName raw) + 1 + String.length (getEmail raw))%nat).
  { unfold underscore_each_space. rewrite length_str, length_map, length_chars.
    rewrite !length_append. simpl. lia. }
  split; [exact Hlen|].
  intros Hempty. rewrite Hempty in Hlen. simpl in Hlen. lia.
Qed.

Lemma formatContact_derived_id_witness :
  contact_id (formatContact spaced_record) = "John__Doe_john_doe@x.com"
  /\ Forall (fun c => is_space c = false) (chars (contact_id (formatContact spaced_record))).
Proof.
  split; [reflexivity|].
  exact (proj1 (formatContact_derived_id spaced_record eq_refl)).
Defined.

Lemma meaningful_formatContact_false (raw : RawRecord) :
  meaningful (formatContact raw) = false <->
  (get raw "Name" <||> get raw "name" = ""
   \/ get raw "Name" <||> get raw "name" = "Unknown Contact")
  /\ Forall (fun k => get raw k = "") contact_aliases.
Proof.
  unfold meaningful, contact_aliases. simpl.
  rewrite !Forall_cons, Forall_nil.
  rewrite !orb_false_iff, negb_false_iff, String.eqb_eq, !truthy_false.
  unfold getPhone. rewrite formatPhone_eq_empty.
  unfold getEmail, getCompany, getName. rewrite !js_or_eq_empty.
  split.
  - intros (((Hname & He1 & He2 & He3 & _) & Hp1 & Hp2 & Hp3 & Hp4 & _)
            & Hc1 & Hc2 & Hc3 & Hc4 & Hc5 & _).
    split; [|tauto].
    rewrite Hc1, Hc2, Hc3, !js_or_empty_l in Hname.
    destruct (js_or_cases (get raw "Name") (get raw "name" <||> "Unknown Contact"))
      as [[E1 H1] | [N1 H1]]; rewrite H1 in Hname.
    + rewrite E1, js_or_empty_l.
      destruct (js_or_cases (get raw "name") "Unknown Contact") as [[E2 H2] | [N2 H2]];
        rewrite H2 in Hname; [now left | now right].
    + right. now rewrite (js_or_left _ _ N1).
  - intros (Hname & Hc1 & Hc2 & Hc3 & Hc4 & Hc5 & He1 & He2 & He3 & Hp1 & Hp2 & Hp3 & Hp4 & _).
    repeat split; try assumption.
    rewrite Hc1, Hc2, Hc3, !js_or_empty_l.
    destruct Hname as [Hname | Hname].
    + destruct Hname as [E1 E2]. rewrite E1, E2. reflexivity.
    + destruct (js_or_cases (get raw "Name") (get raw "name")) as [[E1 H1] | [N1 H1]];
        rewrite H1 in Hname.
      * rewrite E1, js_or_empty_l, Hname. reflexivity.
      * rewrite (js_or_left _ _ N1). exact Hname.
Qed.

(** The filter of getContacts, read on the raw record: a record is dropped
    exactly when none of the company, email and phone headers is filled and
    its name (Name, else name) is missing or is literally the placeholder. *)
Theorem formatContact_filtered_out_iff (raw : RawRecord) :
  meaningful (formatContact raw) = false <->
  (get raw "Name" <||> get raw "name" = ""
   \/ get raw "Name" <||> get raw "name" = "Unknown Contact")
  /\ Forall (fun k => get raw k = "") contact_aliases.
Proof. apply meaningful_formatContact_false. Qed.

(* ===================================================================== *)
(** ** What the parser hands to the formatter *)
(* ===================================================================== *)

Lemma papa_valid_manual_accepts (r : RawRecord) :
  papa_valid r = true -> manual_accepts r = true.
Proof.
  unfold papa_valid, manual_accepts, has_field.
  rewrite !truthy_js_or. intros H.
  apply andb_true_iff in H as [_ H].
  repeat (apply orb_true_iff in H as [H | H]);
    apply andb_true_iff in H as [H _]; rewrite H; now rewrite ?orb_true_r.
Qed.

Lemma manualCSVParse_accepted (csvText : string) (rows : list RawRecord) :
  manualCSVParse csvText = Ok rows -> Forall (fun r => manual_accepts r = true) rows.
Proof.
  unfold manualCSVParse. destruct (_ <? 2)%nat; [discriminate|].
  intros [= <-]. apply Forall_forall. intros r Hr.
  apply list_elem_of_omap in Hr as (raw & _ & Hraw).
  now apply manual_line_Some in Hraw.
Qed.

Lemma parseCSVWithFallbacks_accepted (Papa_parse : PapaProfile -> string -> PapaOutcome)
    (csvText : string) (rows : list RawRecord) :
  (parseCSVWithFallbacks Papa_parse csvText).1 = Ok rows ->
  Forall (fun r => manual_accepts r = true) rows.
Proof.
  intros Hparse. rewrite parseCSVWithFallbacks_outcome in Hparse. revert Hparse.
  assert (Hpapa : forall profile,
             Forall (fun r => manual_accepts r = true) (accepted_rows Papa_parse profile csvText)).
  { intros profile. unfold accepted_rows.
    destruct (Papa_parse profile csvText) as [results | e]; [|constructor].
    apply Forall_forall. intros r Hr. apply list_elem_of_filter in Hr as [Hr _].
    now apply papa_valid_manual_accepts. }
  pose proof (Hpapa EnhancedStandard) as H1. pose proof (Hpapa Relaxed) as H2.
  destruct (accepted_rows Papa_parse EnhancedStandard csvText) as [|r1 rows1];
    [|now intros [= <-]].
  destruct (accepted_rows Papa_parse Relaxed csvText) as [|r2 rows2];
    [|now intros [= <-]].
  destruct (manualCSVParse csvText) as [rows3 | e] eqn:Hmanual; [|discriminate].
  intros [= <-]. now apply (manualCSVParse_accepted csvText).
Qed.

Lemma manual_accepts_meaningful (r : RawRecord) :
  manual_accepts r = true -> get r "Name" <> "Unknown Contact" ->
  meaningful (formatContact r) = true.
Proof.
  intros Haccepts Hname.
  destruct (meaningful (formatContact r)) eqn:Hm; [reflexivity|].
  apply meaningful_formatContact_false in Hm as [Hn Hall].
  unfold contact_aliases in Hall. rewrite !Forall_cons in Hall.
  destruct Hall as (Hc & _ & _ & _ & _ & He & _ & _ & Hp & _).
  unfold manual_accepts in Haccepts. rewrite Hc, He, Hp, !js_or_empty_r in Haccepts.
  apply truthy_true in Haccepts.
  rewrite (js_or_left _ _ Haccepts) in Hn. destruct Hn; congruence.
Qed.

(** Whichever strategy decides, every row parseCSVWithFallbacks returns has
    a value under Name, Email, Phone or Company_name; and the parser fails
    with one message only. *)
Theorem parseCSVWithFallbacks_rows_are_identified
    (Papa_parse : PapaProfile -> string -> PapaOutcome) (csvText : string) :
  match (parseCSVWithFallbacks Papa_parse csvText).1 with
  | Ok rows =>
      Forall (fun r => exists k, k ∈ identifying_headers /\ get r k <> "") rows
  | Err e => e = "All parsing strategies failed"
  end.
Proof.
  destruct (parseCSVWithFallbacks Papa_parse csvText).1 as [rows | e] eqn:Hparse.
  - apply parseCSVWithFallbacks_accepted in Hparse.
    eapply Forall_impl; [exact Hparse|]. intros r Hr. simpl in Hr.
    apply exists_identifying. unfold manual_accepts in Hr.
    rewrite !truthy_js_or, !orb_true_iff, !truthy_true in Hr. tauto.
  - rewrite parseCSVWithFallbacks_outcome in Hparse.
    destruct (accepted_rows Papa_parse EnhancedStandard csvText); [|discriminate].
    destruct (accepted_rows Papa_parse Relaxed csvText); [|discriminate].
    destruct (manualCSVParse csvText); [discriminate | congruence].
Qed.

(** The parser and the filter of getContacts together: of the rows the
    parser returns, the filter drops none, unless a row is named literally
    Unknown Contact. *)
Theorem parsed_rows_pass_the_filter
    (Papa_parse : PapaProfile -> string -> PapaOutcome) (csvText : string)
    (rows : list RawRecord) :
  (parseCSVWithFallbacks Papa_parse csvText).1 = Ok rows ->
  Forall (fun r => get r "Name" <> "Unknown Contact") rows ->
  filter (fun c => meaningful c = true) (map formatContact rows) = map formatContact rows.
Proof.
  intros Hparse Hnames. apply parseCSVWithFallbacks_accepted in Hparse.
  induction rows as [|r rows IH]; [reflexivity|].
  apply Forall_cons in Hparse as [Hr Hrows]. apply Forall_cons in Hnames as [Hn Hns].
  simpl map. rewrite filter_cons_True by now apply manual_accepts_meaningful.
  now rewrite IH.
Qed.

Lemma parsed_rows_pass_the_filter_witness :
  (parseCSVWithFallbacks papa_reference localCSVData).1 = Ok localRows
  /\ filter (fun c => meaningful c = true) (map formatContact localRows)
     = map formatContact localRows.
Proof.
  assert (Hparse : (parseCSVWithFallbacks papa_reference localCSVData).1 = Ok localRows)
    by now rewrite parseCSVWithFallbacks_reference_sample.
  split; [exact Hparse|].
  apply (parsed_rows_pass_the_filter papa_reference localCSVData localRows Hparse).
  unfold localRows. repeat constructor; vm_compute; discriminate.
Defined.

(* ===================================================================== *)
(** ** The acquisition ladder of getContacts *)
(* ===================================================================== *)

Lemma parseCSVWithFallbacks_parse_events (Papa_parse : PapaProfile -> string -> PapaOutcome)
    (csvText : string) :
  Forall (fun ev => exists strategy, ev = EvParse strategy)
         (parseCSVWithFallbacks Papa_parse csvText).2.
Proof.
  destruct (parseCSVWithFallbacks_events Papa_parse csvText) as (n & -> & _).
  apply Forall_forall. intros ev Hev. apply list_elem_of_fmap in Hev as (s & -> & _). eauto.
Qed.

Lemma parseCSVWithFallbacks_fetcher_events (Papa_parse : PapaProfile -> string -> PapaOutcome)
    (csvText : string) :
  Forall fetcher_event (parseCSVWithFallbacks Papa_parse csvText).2.
Proof.
  eapply Forall_impl; [apply parseCSVWithFallbacks_parse_events|].
  intros ev [s ->]. exact I.
Qed.

Lemma parseCSVWithFallbacks_not_local (Papa_parse : PapaProfile -> string -> PapaOutcome)
    (csvText : string) :
  EvLoadLocal ∉ (parseCSVWithFallbacks Papa_parse csvText).2.
Proof.
  intros Hin.
  pose proof (proj1 (Forall_forall _ _) (parseCSVWithFallbacks_parse_events Papa_parse csvText)
                _ Hin) as [s Hs].
  discriminate.
Qed.

Lemma fetchCSVFromURL_fetcher_events (Papa_parse : PapaProfile -> string -> PapaOutcome)
    (w : World) (url : string) :
  Forall fetcher_event (fetchCSVFromURL Papa_parse w url 1).2.
Proof.
  assert (Hparse : forall csvText t,
             Forall fetcher_event t ->
             Forall fetcher_event (after t (parseCSVWithFallbacks Papa_parse csvText)).2).
  { intros csvText t Ht. unfold after. simpl. apply Forall_app. split; [exact Ht|].
    apply parseCSVWithFallbacks_fetcher_events. }
  rewrite fetchCSVFromURL_step.
  destruct (fetch_text w url 1).1; [apply Hparse; repeat constructor|].
  destruct (decide (1 < maxAttempts)%nat); [|repeat constructor].
  unfold after at 1. simpl. repeat (constructor; [exact I|]).
  rewrite fetchCSVFromURL_step.
  destruct (fetch_text w url 2).1; [apply Hparse; repeat constructor|].
  destruct (decide (2 < maxAttempts)%nat); [|repeat constructor].
  unfold after at 1. simpl. repeat (constructor; [exact I|]).
  rewrite fetchCSVFromURL_step.
  destruct (fetch_text w url 3).1; [apply Hparse; repeat constructor|].
  destruct (decide (3 < maxAttempts)%nat) as [Hlt | _]; [|repeat constructor].
  unfold maxAttempts in Hlt. lia.
Qed.

Lemma downloadAndCacheCSV_cache_events (url : string) (fs : FileSystemWorld) :
  Forall cache_event (downloadAndCacheCSV url fs).2.
Proof.
  unfold downloadAndCacheCSV, call, lift, bind, try_catch, after, ret, throw.
  destruct (fs_info_exists fs) as [[|] | ?]; simpl;
    [destruct (fs_cache_age fs) as [[age|] | ?]; simpl;
     [destruct (age <? 600000); simpl; [destruct (fs_cached_data fs); simpl|]| |]| |];
    repeat match goal with
           | |- context [fs_download fs] => destruct (fs_download fs) as [status | ?]; simpl
           | |- context [(?status =? 200)%nat] => destruct (status =? 200)%nat; simpl
           | |- context [fs_write_info fs] => destruct (fs_write_info fs); simpl
           | |- context [fs_downloaded_data fs] => destruct (fs_downloaded_data fs); simpl
           | |- context [fs_file_exists fs] => destruct (fs_file_exists fs) as [[|] | ?]; simpl
           | |- context [fs_stale_data fs] => destruct (fs_stale_data fs); simpl
           end;
    repeat constructor.
Qed.

Section Ladder.

Variable Papa_parse : PapaProfile -> string -> PapaOutcome.
Variable config : Config.

Lemma fetchCSVFromURL_not_local (w : World) (url : string) :
  EvLoadLocal ∉ (fetchCSVFromURL Papa_parse w url 1).2.
Proof.
  intros Hin.
  exact (proj1 (Forall_forall _ _) (fetchCSVFromURL_fetcher_events Papa_parse w url) _ Hin).
Qed.

Lemma cacheStage_not_local (w : World) : EvLoadLocal ∉ (cacheStage Papa_parse config w).2.
Proof.
  unfold cacheStage.
  pose proof (downloadAndCacheCSV_cache_events (csvUrl config) (w_fs w)) as Hcache.
  destruct (downloadAndCacheCSV (csvUrl config) (w_fs w)) as [[csvText | e] t]; simpl in *.
  - intros Hin. apply elem_of_app in Hin as [Hin | Hin].
    + exact (proj1 (Forall_forall _ _) Hcache _ Hin).
    + now apply parseCSVWithFallbacks_not_local in Hin.
  - intros Hin. exact (proj1 (Forall_forall _ _) Hcache _ Hin).
Qed.

Lemma alternativeFetch_not_local (w : World) :
  EvLoadLocal ∉ (alternativeFetch Papa_parse config w).2.
Proof.
  unfold alternativeFetch, bind, emit, after, lift, throw.
  destruct (w_alt w) as [e | status statusText [csvText | e]]; simpl;
    try destruct (response_ok status); simpl;
    rewrite ?app_nil_r, ?not_elem_of_cons; try (split; [discriminate | apply not_elem_of_nil]).
  split; [discriminate|]. apply parseCSVWithFallbacks_not_local.
Qed.

Lemma proxyFetch_not_local (w : World) :
  EvLoadLocal ∉ (proxyFetch Papa_parse config w).2.
Proof.
  unfold proxyFetch, bind, emit, after, lift, throw.
  destruct (w_proxy w) as [e | status statusText [csvText | e]]; simpl;
    try destruct (response_ok status); simpl;
    rewrite ?app_nil_r, ?not_elem_of_cons; try (split; [discriminate | apply not_elem_of_nil]).
  split; [discriminate|]. apply parseCSVWithFallbacks_not_local.
Qed.

Lemma acquire_remote (w : World) :
  useLocalCSV config = false ->
  acquire Papa_parse config w
  = try_catch (fetchCSVFromURL Papa_parse w (csvUrl config) 1) (fun _ =>
    try_catch (cacheStage Papa_parse config w) (fun _ =>
    try_catch (alternativeFetch Papa_parse config w) (fun _ =>
    try_catch (proxyFetch Papa_parse config w) (fun _ =>
    loadLocalCSV Papa_parse)))).
Proof. intros Hremote. unfold acquire. now rewrite Hremote. Qed.

Lemma loadLocalCSV_events : (loadLocalCSV Papa_parse).2 = [EvLoadLocal].
Proof.
  unfold loadLocalCSV, bind, emit, after. simpl.
  now destruct (Papa_parse LocalCSV localCSVData).
Qed.

(** In remote mode the bundled sample is the last resort: it is loaded only
    after the fetcher, the file cache, the alternative fetch and the proxy
    have been tried in this order and have all failed. *)
Theorem bundled_sample_is_the_last_resort (w : World) :
  useLocalCSV config = false ->
  EvLoadLocal ∈ (acquire Papa_parse config w).2 ->
  exists e1 e2 e3 e4 t1 t2 t3 t4,
    fetchCSVFromURL Papa_parse w (csvUrl config) 1 = (Err e1, t1)
    /\ cacheStage Papa_parse config w = (Err e2, t2)
    /\ alternativeFetch Papa_parse config w = (Err e3, t3)
    /\ proxyFetch Papa_parse config w = (Err e4, t4)
    /\ (acquire Papa_parse config w).2 = t1 ++ t2 ++ t3 ++ t4 ++ [EvLoadLocal].
Proof.
  intros Hremote. rewrite (acquire_remote w Hremote).
  pose proof (fetchCSVFromURL_not_local w (csvUrl config)) as H1.
  pose proof (cacheStage_not_local w) as H2.
  pose proof (alternativeFetch_not_local w) as H3.
  pose proof (proxyFetch_not_local w) as H4.
  destruct (fetchCSVFromURL Papa_parse w (csvUrl config) 1) as [[rows1 | e1] t1];
    destruct (cacheStage Papa_parse config w) as [[rows2 | e2] t2];
    destruct (alternativeFetch Papa_parse config w) as [[rows3 | e3] t3];
    destruct (proxyFetch Papa_parse config w) as [[rows4 | e4] t4];
    cbn [try_catch after fst snd] in *;
    try (intros Hin; exfalso; rewrite ?elem_of_app in Hin; decompose [or] Hin;
         first [now apply H1 | now apply H2 | now apply H3 | now apply H4]).
  intros _. exists e1, e2, e3, e4, t1, t2, t3, t4.
  rewrite loadLocalCSV_events. repeat split; reflexivity.
Qed.

(** In offline mode (config.useLocalCSV set) getContacts touches neither the
    network nor the file system: the only thing it does is to load the
    bundled sample; when Papa.parse reads the sample, the call returns the
    sample contacts or the array of the previous snapshot. *)
Theorem getContacts_offline_mode_stays_local (w : World) (now : Z) (forceRefresh : bool)
    (st : State) :
  useLocalCSV config = true ->
  Forall (fun ev => ev = EvLoadLocal)
         (getContacts Papa_parse config w now forceRefresh st).1.2
  /\ (papa_parses_sample Papa_parse ->
      exists result,
        (getContacts Papa_parse config w now forceRefresh st).1.1 = Ok result
        /\ (array_items result = map formatContact localRows
            \/ cachedContacts st = Some result)).
Proof.
  intros Hlocal.
  assert (Hacquire : acquire Papa_parse config w = loadLocalCSV Papa_parse).
  { unfold acquire. now rewrite Hlocal. }
  split.
  - unfold getContacts. destruct (cache_hit now forceRefresh st); [constructor|].
    unfold try_block. rewrite Hacquire.
    pose proof loadLocalCSV_events as Hevents.
    unfold catch_block.
    destruct (loadLocalCSV Papa_parse) as [[rows | e] t]; simpl in *; subst t.
    + destruct (w_unexpected w); simpl; [|repeat constructor].
      destruct (cachedContacts st); simpl; repeat constructor.
    + destruct (cachedContacts st); simpl; repeat constructor.
  - intros Hsample. unfold getContacts.
    destruct (cache_hit now forceRefresh st) as [cached|] eqn:Hhit.
    + exists cached. split; [reflexivity|]. right.
      unfold cache_hit in Hhit. destruct (cachedContacts st); [|discriminate].
      destruct (_ && _); congruence.
    + destruct (w_unexpected w) as [e|] eqn:Hfine.
      * unfold try_block, catch_block.
        rewrite Hacquire, (loadLocalCSV_sample _ Hsample), Hfine. simpl.
        destruct (cachedContacts st) as [cached|]; simpl; eauto.
      * rewrite (try_block_sample Papa_parse config w Hsample Hlocal Hfine). simpl. eauto.
Qed.

(** When the fetcher succeeds no other stage runs: the log of getContacts
    is the log of the fetcher (fetches, failures, delays and parses only),
    and the contacts are the meaningful ones among its rows, stored as the
    new snapshot. *)
Theorem getContacts_primary_success (w : World) (now : Z) (forceRefresh : bool)
    (st : State) (rows : list RawRecord) (t : list Event) :
  useLocalCSV config = false ->
  cache_hit now forceRefresh st = None ->
  w_unexpected w = None ->
  fetchCSVFromURL Papa_parse w (csvUrl config) 1 = (Ok rows, t) ->
  let result := mkArray (allocated st)
                        (filter (fun c => meaningful c = true) (map formatContact rows)) in
  getContacts Papa_parse config w now forceRefresh st
  = ((Ok result, t), mkState (Some result) now (S (allocated st)))
  /\ Forall fetcher_event t.
Proof.
  intros Hremote Hmiss Hfine Hfetch result. split.
  - unfold getContacts, try_block. rewrite Hmiss, (acquire_remote w Hremote), Hfetch. simpl.
    rewrite Hfine. simpl. now rewrite app_nil_r.
  - pose proof (fetchCSVFromURL_fetcher_events Papa_parse w (csvUrl config)) as Hevents.
    now rewrite Hfetch in Hevents.
Qed.

End Ladder.

Lemma bundled_sample_is_the_last_resort_witness :
  EvLoadLocal ∈ (acquire papa_reference app_config world_500).2
  /\ exists t, (acquire papa_reference app_config world_500).2 = t ++ [EvLoadLocal]
               /\ EvProxyFetch (csvUrl app_config) ∈ t.
Proof.
  assert (Hin : EvLoadLocal ∈ (acquire papa_reference app_config world_500).2).
  { assert (Hlast : last (acquire papa_reference app_config world_500).2 = Some EvLoadLocal)
      by (vm_compute; reflexivity).
    apply last_Some in Hlast as [t ->]. apply elem_of_app. right. apply list_elem_of_here. }
  split; [exact Hin|].
  destruct (bundled_sample_is_the_last_resort papa_reference app_config world_500 eq_refl Hin)
    as (e1 & e2 & e3 & e4 & t1 & t2 & t3 & t4 & _ & _ & _ & H4 & Ht).
  exists (t1 ++ t2 ++ t3 ++ t4). split; [now rewrite Ht, <- !app_assoc|].
  assert (Hproxy : t4 = (proxyFetch papa_reference app_config world_500).2) by now rewrite H4.
  rewrite !elem_of_app. right. right. right. rewrite Hproxy. vm_compute. left.
Defined.

Lemma getContacts_offline_mode_stays_local_witness :
  Forall (fun ev => ev = EvLoadLocal)
         (getContacts papa_reference offline_config world_500 0 true initial_state).1.2.
Proof.
  exact (proj1 (getContacts_offline_mode_stays_local papa_reference offline_config world_500
                  0 true initial_state eq_refl)).
Defined.

Lemma getContacts_primary_success_witness :
  exists result t,
    getContacts papa_reference app_config world_online 0 false initial_state
    = ((Ok result, t), mkState (Some result) 0 1)
    /\ array_items result = map formatContact localRows
    /\ Forall fetcher_event t.
Proof.
  destruct (getContacts_primary_success papa_reference app_config world_online 0 false
              initial_state localRows
              [EvFetch (csvUrl app_config) 1; EvParse (PapaStrategy EnhancedStandard)]
              eq_refl eq_refl eq_refl)
    as [Hget Hevents].
  - rewrite (fetchCSVFromURL_fetched papa_reference world_online (csvUrl app_config) 1
               localCSVData [EvFetch (csvUrl app_config) 1]) by (vm_compute; reflexivity).
    now rewrite parseCSVWithFallbacks_reference_sample.
  - eexists _, _. split; [exact Hget|]. split; [|exact Hevents].
    cbn [array_items]. apply filter_all, sample_contacts_meaningful.
Defined.

(* ===================================================================== *)
(** ** downloadAndCacheCSV: the stale file as a fallback *)
(* ===================================================================== *)

(** As long as the cache file is there and can be read, downloadAndCacheCSV
    does not fail, whatever happens to the sidecar and to the download: it
    returns the fresh cache, the downloaded text, or the stale file. *)
Theorem downloadAndCacheCSV_serves_the_file_it_has (url : string) (fs : FileSystemWorld)
    (staleData : string) :
  fs_file_exists fs = Ok true ->
  fs_stale_data fs = Ok staleData ->
  exists text,
    (downloadAndCacheCSV url fs).1 = Ok text
    /\ (fs_cached_data fs = Ok text \/ fs_downloaded_data fs = Ok text \/ text = staleData).
Proof.
  intros Hexists Hstale.
  unfold downloadAndCacheCSV, call, lift, bind, try_catch, after, ret, throw.
  rewrite Hexists, Hstale.
  destruct (fs_info_exists fs) as [[|] | ?]; simpl;
    [destruct (fs_cache_age fs) as [[age|] | ?]; simpl;
     [destruct (age <? 600000); simpl; [destruct (fs_cached_data fs); simpl|]| |]| |];
    repeat match goal with
           | |- context [match fs_download fs with _ => _ end] =>
               destruct (fs_download fs) as [status | ?]; simpl
           | |- context [(?status =? 200)%nat] => destruct (status =? 200)%nat; simpl
           | |- context [match fs_write_info fs with _ => _ end] =>
               destruct (fs_write_info fs); simpl
           | |- context [match fs_downloaded_data fs with _ => _ end] =>
               destruct (fs_downloaded_data fs) eqn:?; simpl
           end;
    eauto 6.
Qed.

Lemma downloadAndCacheCSV_serves_the_file_it_has_witness :
  (downloadAndCacheCSV (csvUrl app_config) fs_offline_with_file).1 = Ok localCSVData.
Proof.
  destruct (downloadAndCacheCSV_serves_the_file_it_has (csvUrl app_config)
              fs_offline_with_file localCSVData eq_refl eq_refl)
    as (text & Hrun & [Hfresh | [Hdownloaded | ->]]).
  - discriminate Hfresh.
  - discriminate Hdownloaded.
  - exact Hrun.
Defined.

(** The status of the download guards the sidecar, not the text. When the
    download is answered with a status other than 200, the handler reads the
    cache file, which is the file the download has just written to: on a
    device where that file has one content, what downloadAndCacheCSV
    returns is the text a download answered 200 would have returned, and
    the call fails only when the file is missing or cannot be read. *)
Theorem downloadAndCacheCSV_serves_a_rejected_download (url : string) (fs : FileSystemWorld)
    (status : nat) :
  fs_download fs = Ok status ->
  status <> 200%nat ->
  EvDownload url ∈ (downloadAndCacheCSV url fs).2 ->
  one_cache_file fs ->
  match (downloadAndCacheCSV url fs).1 with
  | Ok text => fs_file_exists fs = Ok true /\ fs_downloaded_data fs = Ok text
  | Err e =>
      (fs_file_exists fs = Ok false /\ e = "Download failed with status " +:+ pretty status)
      \/ fs_file_exists fs = Err e
      \/ (fs_file_exists fs = Ok true /\ fs_downloaded_data fs = Err e)
  end.
Proof.
  intros Hdownload Hstatus Hin Hone. unfold one_cache_file in Hone. rewrite <- Hone.
  revert Hin. clear Hone.
  apply Nat.eqb_neq in Hstatus.
  unfold downloadAndCacheCSV, call, lift, bind, try_catch, after, ret, throw.
  rewrite Hdownload.
  destruct (fs_info_exists fs) as [[|] | ?]; simpl;
    [destruct (fs_cache_age fs) as [[age|] | ?]; simpl;
     [destruct (age <? 600000); simpl; [destruct (fs_cached_data fs); simpl|]| |]| |];
    rewrite ?Hstatus; simpl;
    destruct (fs_file_exists fs) as [[|] | ?]; simpl;
    try destruct (fs_stale_data fs); simpl;
    intros Hin; repeat (apply elem_of_cons in Hin as [Hin | Hin]; try discriminate Hin);
    try (now apply elem_of_nil in Hin); auto.
Qed.

Lemma downloadAndCacheCSV_serves_a_rejected_download_witness :
  one_cache_file fs_not_found
  /\ (downloadAndCacheCSV (csvUrl app_config) fs_not_found).1 = fs_downloaded_data fs_not_found
  /\ fs_downloaded_data fs_not_found = Ok "<html>404 Not Found</html>".
Proof.
  split; [reflexivity|]. split; [|reflexivity].
  assert (Hin : EvDownload (csvUrl app_config)
                ∈ (downloadAndCacheCSV (csvUrl app_config) fs_not_found).2).
  { vm_compute. apply list_elem_of_further, list_elem_of_here. }
  assert (Hstatus : 404%nat <> 200%nat) by discriminate.
  pose proof (downloadAndCacheCSV_serves_a_rejected_download (csvUrl app_config) fs_not_found
                404 eq_refl Hstatus Hin eq_refl) as Hserved.
  destruct ((downloadAndCacheCSV (csvUrl app_config) fs_not_found).1) as [text | e] eqn:Hout.
  - destruct Hserved as [_ Hdata]. now rewrite Hdata.
  - exfalso. vm_compute in Hout. discriminate.
Defined.

(* ===================================================================== *)
(** ** exportService and the maintenance of the file cache *)
(* ===================================================================== *)

(** exportContacts never throws: it resolves with a result that says
    whether the three steps (write, availability, share) all went through;
    the file is written first, whatever follows. *)
Theorem exportContacts_reports_every_failure (d : Device) (contacts : list Contact)
    (filename : string) :
  exists result t,
    exportContacts d contacts filename = (Ok result, t)
    /\ (success result = true <->
        dev_write d = Ok tt /\ dev_available d = Ok true /\ dev_share d = Ok tt)
    /\ (success result = true -> message result = "Contacts exported successfully!")
    /\ (dev_write d = Ok tt -> dev_available d = Ok false ->
        message result = "Sharing is not available on this device")
    /\ head t = Some (DevWrite (documentDirectory d +:+ filename) (exportContacts_csv contacts)).
Proof.
  unfold exportContacts, dev_try_catch, dev_bind, dev_call, dev_ret, dev_throw.
  destruct (dev_write d) as [[] | e1]; simpl;
    [destruct (dev_available d) as [[|] | e2]; simpl;
     [destruct (dev_share d) as [[] | e3]; simpl| |]|];
    eexists _, _; (split; [reflexivity|]); simpl; repeat split; try easy;
    try (intros (H1 & H2 & H3); discriminate).
Qed.

(** exportFilteredContacts opens the share sheet only on the file it has
    just written: contacts_, the category, the date, .csv, in the document
    directory, holding the CSV text of the contacts. *)
Theorem exportFilteredContacts_shares_the_file_it_wrote (d : Device) (today : string)
    (contacts : list Contact) (searchQuery filterBy uri title : string) :
  DevShare uri title ∈ (exportFilteredContacts d today contacts searchQuery filterBy).2 ->
  uri = documentDirectory d +:+ "contacts_" +:+ filterBy +:+ "_" +:+ today +:+ ".csv"
  /\ (exportFilteredContacts d today contacts searchQuery filterBy).2
     = [DevWrite uri (exportContacts_csv contacts); DevIsAvailable;
        DevShare uri "Export Contacts"]
  /\ dev_write d = Ok tt /\ dev_available d = Ok true.
Proof.
  unfold exportFilteredContacts, exportContacts, dev_try_catch, dev_bind, dev_call, dev_ret,
    dev_throw.
  destruct (dev_write d) as [[] | e1]; simpl.
  - destruct (dev_available d) as [[|] | e2]; simpl.
    + assert (Hshare :
        DevShare uri title
        ∈ [DevWrite (documentDirectory d +:+ "contacts_" +:+ filterBy +:+ "_" +:+ today
                     +:+ ".csv") (exportContacts_csv contacts);
           DevIsAvailable;
           DevShare (documentDirectory d +:+ "contacts_" +:+ filterBy +:+ "_" +:+ today
                     +:+ ".csv") "Export Contacts"] ->
        uri = documentDirectory d +:+ "contacts_" +:+ filterBy +:+ "_" +:+ today +:+ ".csv").
      { rewrite !elem_of_cons, elem_of_nil. intros [H | [H | [H | []]]]; congruence. }
      destruct (dev_share d) as [[] | e3]; simpl; intros Hin;
        rewrite (Hshare Hin); repeat split.
    + rewrite !elem_of_cons, elem_of_nil. intros [H | [H | []]]; discriminate.
    + rewrite !elem_of_cons, elem_of_nil. intros [H | [H | []]]; discriminate.
  - rewrite !elem_of_cons, elem_of_nil. intros [H | []]; discriminate.
Qed.

Lemma exportFilteredContacts_shares_the_file_it_wrote_witness :
  (exportFilteredContacts device_ready "2024-05-17" [john_doe] "john" "company").2
  = [DevWrite "file:///data/user/0/app/files/contacts_company_2024-05-17.csv"
              (exportContacts_csv [john_doe]);
     DevIsAvailable;
     DevShare "file:///data/user/0/app/files/contacts_company_2024-05-17.csv"
              "Export Contacts"].
Proof.
  destruct (exportFilteredContacts_shares_the_file_it_wrote device_ready "2024-05-17"
              [john_doe] "john" "company"
              "file:///data/user/0/app/files/contacts_company_2024-05-17.csv"
              "Export Contacts")
    as (_ & Hlog & _).
  - cbv [exportFilteredContacts exportContacts dev_try_catch dev_bind dev_call dev_ret
         dev_throw device_ready documentDirectory dev_write dev_available dev_share fst snd].
    simpl. do 2 apply list_elem_of_further. apply list_elem_of_here.
  - exact Hlog.
Defined.

(** exportCacheFile does not wait for the answer of the availability check:
    it succeeds exactly when the cache file exists and the share goes
    through, and whenever the file exists the share sheet is opened. *)
Theorem exportCacheFile_does_not_wait_for_availability (d : Device) :
  ((exportCacheFile d).1 = Ok tt <-> dev_cache_exists d = Ok true /\ dev_share d = Ok tt)
  /\ (DevShare (documentDirectory d +:+ cacheFileUri) "Export Cached CSV Data"
      ∈ (exportCacheFile d).2 <-> dev_cache_exists d = Ok true)
  /\ (dev_cache_exists d = Ok false ->
      (exportCacheFile d).1 = Err "Cache file not found or sharing not available").
Proof.
  unfold exportCacheFile, dev_try_catch, dev_bind, dev_call, dev_ret, dev_throw.
  destruct (dev_cache_exists d) as [[|] | e1]; simpl;
    [destruct (dev_share d) as [[] | e2]; simpl| |];
    rewrite !elem_of_cons, elem_of_nil; repeat split; try easy; try tauto;
    try (intros [H1 H2]; discriminate);
    try (intros [H | []]; discriminate).
Qed.

Lemma append_inv_head (a b c : string) : a +:+ b = a +:+ c -> b = c.
Proof. induction a as [|ch a IH]; simpl; [easy|]. intros [= H]. now apply IH. Qed.

(** clearCache never throws, and a cache file that cannot be deleted keeps
    its sidecar: the second deletion is issued exactly when the first one
    went through. *)
Theorem clearCache_never_throws (d : Device) :
  (clearCache d).1 = Ok tt
  /\ head (clearCache d).2 = Some (DevDelete (documentDirectory d +:+ cacheFileUri))
  /\ (DevDelete (documentDirectory d +:+ cacheInfoUri) ∈ (clearCache d).2 <->
      dev_delete_file d = Ok tt).
Proof.
  unfold clearCache, dev_try_catch, dev_bind, dev_call, dev_ret, dev_throw.
  destruct (dev_delete_file d) as [[] | e1]; simpl.
  - destruct (dev_delete_info d) as [[] | e2]; simpl; repeat split; try easy;
      intros _; apply list_elem_of_further, list_elem_of_here.
  - repeat split; try easy.
    rewrite !elem_of_cons, elem_of_nil. intros [H | []].
    injection H as H. apply append_inv_head in H. discriminate.
Qed.

(* ===================================================================== *)
(** ** The screen: search, load and offline mode *)
(* ===================================================================== *)

Lemma drop_while_nil (f : ascii -> bool) (l : list ascii) :
  drop_while f l = [] <-> forallb f l = true.
Proof.
  induction l as [|c l IH]; simpl; [easy|].
  destruct (f c); simpl; [exact IH | easy].
Qed.

Lemma forallb_drop_while (f : ascii -> bool) (l : list ascii) :
  forallb f (drop_while f l) = forallb f l.
Proof.
  induction l as [|c l IH]; simpl; [reflexivity|].
  destruct (f c) eqn:Hc; simpl; [exact IH | now rewrite Hc].
Qed.

Lemma forallb_rev (f : ascii -> bool) (l : list ascii) : forallb f (rev l) = forallb f l.
Proof.
  induction l as [|c l IH]; simpl; [reflexivity|].
  rewrite forallb_app, IH. simpl. rewrite andb_true_r. apply andb_comm.
Qed.

Lemma truthy_str (l : list ascii) : truthy (str l) = negb (bool_decide (l = [])).
Proof. now destruct l. Qed.

Lemma truthy_trim (s : string) : truthy (trim s) = negb (forallb is_space (chars s)).
Proof.
  unfold trim. rewrite truthy_str. f_equal.
  apply eq_true_iff_eq. rewrite bool_decide_eq_true.
  unfold trim_chars.
  rewrite <- (forallb_drop_while is_space (chars s)), <- forallb_rev.
  rewrite <- drop_while_nil.
  split; intros H.
  - apply (f_equal (@rev ascii)) in H. now rewrite rev_involutive in H.
  - now rewrite H.
Qed.

Lemma is_space_toLowerCase_char (c : ascii) : is_space (toLowerCase_char c) = is_space c.
Proof. destruct c as [[] [] [] [] [] [] [] []]; reflexivity. Qed.

Lemma forallb_is_space_toLowerCase (s : string) :
  forallb is_space (chars (toLowerCase s)) = forallb is_space (chars s).
Proof.
  unfold toLowerCase. rewrite chars_str.
  induction (chars s) as [|c l IH]; simpl; [reflexivity|].
  now rewrite is_space_toLowerCase_char, IH.
Qed.

Lemma filter_pair_idem {A} (P Q : A -> Prop) `{forall x, Decision (P x)}
    `{forall x, Decision (Q x)} (l : list A) :
  filter Q (filter P (filter Q (filter P l))) = filter Q (filter P l).
Proof.
  rewrite (filter_all P (filter Q (filter P l))).
  - apply filter_all, Forall_forall. intros x Hx. now apply list_elem_of_filter in Hx.
  - apply Forall_forall. intros x Hx.
    apply list_elem_of_filter in Hx as [_ Hx]. now apply list_elem_of_filter in Hx.
Qed.

Lemma filter_idem {A} (P : A -> Prop) `{forall x, Decision (P x)} (l : list A) :
  filter P (filter P l) = filter P l.
Proof. apply filter_all, Forall_forall. intros x Hx. now apply list_elem_of_filter in Hx. Qed.

(** filterContacts only narrows the list: what it shows is a sublist of the
    contacts, in their order; filtering again changes nothing; under the
    company category every contact shown has a company, under the location
    category a city or a country. *)
Theorem filterContacts_narrows (contacts : list Contact) (searchQuery filterBy : string) :
  sublist (filterContacts contacts searchQuery filterBy) contacts
  /\ filterContacts (filterContacts contacts searchQuery filterBy) searchQuery filterBy
     = filterContacts contacts searchQuery filterBy
  /\ (filterBy = "company" ->
      Forall (fun c => contact_company c <> "")
             (filterContacts contacts searchQuery filterBy))
  /\ (filterBy = "location" ->
      Forall (fun c => contact_city c <> "" \/ contact_country c <> "")
             (filterContacts contacts searchQuery filterBy)).
Proof.
  unfold filterContacts.
  split; [|split; [|split]].
  - destruct (truthy (trim searchQuery)), (String.eqb filterBy "company"),
      (String.eqb filterBy "location");
      repeat (etransitivity; [apply sublist_filter|]); reflexivity.
  - destruct (truthy (trim searchQuery)), (String.eqb filterBy "company"),
      (String.eqb filterBy "location");
      first [apply filter_pair_idem | apply filter_idem | reflexivity].
  - intros ->. simpl. apply Forall_forall. intros c Hc.
    apply list_elem_of_filter in Hc as [Hc _]. now apply truthy_true.
  - intros ->. simpl. apply Forall_forall. intros c Hc.
    apply list_elem_of_filter in Hc as [Hc _].
    rewrite truthy_js_or, orb_true_iff, !truthy_true in Hc. exact Hc.
Qed.

(** The search does not look at the case of the query: two queries that
    agree in lower case select the same contacts. *)
Theorem filterContacts_ignores_the_case_of_the_query (contacts : list Contact)
    (query1 query2 filterBy : string) :
  toLowerCase query1 = toLowerCase query2 ->
  filterContacts contacts query1 filterBy = filterContacts contacts query2 filterBy.
Proof.
  intros Hlower. unfold filterContacts.
  rewrite !truthy_trim, <- (forallb_is_space_toLowerCase query1),
    <- (forallb_is_space_toLowerCase query2), Hlower.
  reflexivity.
Qed.

Lemma filterContacts_ignores_the_case_of_the_query_witness :
  filterContacts (map formatContact localRows) "JOHN" "all"
  = filterContacts (map formatContact localRows) "john" "all"
  /\ List.length (filterContacts (map formatContact localRows) "john" "all") = 2%nat.
Proof.
  split.
  - apply (filterContacts_ignores_the_case_of_the_query _ "JOHN" "john" "all"). reflexivity.
  - vm_compute. reflexivity.
Defined.

(** getContactColor always answers a colour: the accent for a missing
    name, and otherwise one of the seven of the palette, chosen by the first
    character alone. *)
Theorem getContactColor_is_a_colour (name : string) :
  exists colour,
    getContactColor name = Some colour
    /\ (name = "" -> colour = accent)
    /\ (name <> "" -> colour ∈ colors).
Proof.
  destruct name as [|c name]; simpl.
  - exists accent. repeat split. intros H. now contradiction H.
  - assert (Hlt : (nat_of_ascii c mod List.length colors < List.length colors)%nat)
      by (apply Nat.mod_upper_bound; discriminate).
    destruct (lookup_lt_is_Some_2 colors _ Hlt) as [colour Hcolour].
    exists colour. split; [exact Hcolour|]. split; [discriminate|].
    intros _. now apply list_elem_of_lookup_2 in Hcolour.
Qed.

Section ScreenProperties.

Variable Papa_parse : PapaProfile -> string -> PapaOutcome.

(** What loadContacts does with the array getContacts resolves with. *)
Lemma loadContacts_ok (config : Config) (w : World) (now : Z) (searchQuery filterBy : string)
    (silent forceRefresh : bool) (st : State) (data : ContactArray) (t : list Event)
    (st' : State) :
  getContacts Papa_parse config w now forceRefresh st = ((Ok data, t), st') ->
  loadContacts Papa_parse config w now searchQuery filterBy silent forceRefresh st
  = (((if silent then []
       else [SetLoading true; SetError None; SetConnectionStatus "connecting"])
      ++ [SetContacts data; SetConnectionStatus "connected"; SetRetryCount 0]
      ++ match array_items data with
         | [] => [SetError (Some "No contacts found. Please check the CSV file.");
                  SetConnectionStatus "no-data"]
         | _ :: _ => [SetFilteredContacts (filterContacts (array_items data) searchQuery
                                                          filterBy)]
         end
      ++ [SetLoading false; SetRefreshing false], t), st').
Proof.
  intros Hget. unfold loadContacts. rewrite Hget.
  destruct silent, (array_items data); reflexivity.
Qed.

Lemma loadContacts_service (config : Config) (w : World) (now : Z)
    (searchQuery filterBy : string) (silent forceRefresh : bool) (st : State) :
  (loadContacts Papa_parse config w now searchQuery filterBy silent forceRefresh st).1.2
  = (getContacts Papa_parse config w now forceRefresh st).1.2
  /\ (loadContacts Papa_parse config w now searchQuery filterBy silent forceRefresh st).2
     = (getContacts Papa_parse config w now forceRefresh st).2.
Proof.
  unfold loadContacts.
  now destruct (getContacts Papa_parse config w now forceRefresh st) as [[outcome t] st'].
Qed.

(** Since getContacts never throws, loadContacts never reaches its error
    branch: no alert is shown and the status is never error; the last
    status set is connected, or no-data when the array is empty, and the
    spinners are always switched off at the end. *)
Theorem loadContacts_never_shows_an_error (config : Config) (w : World) (now : Z)
    (searchQuery filterBy : string) (silent forceRefresh : bool) (st : State) :
  papa_parses_sample Papa_parse ->
  exists data front,
    (getContacts Papa_parse config w now forceRefresh st).1.1 = Ok data
    /\ (loadContacts Papa_parse config w now searchQuery filterBy silent forceRefresh st).1.1
       = front ++ [SetLoading false; SetRefreshing false]
    /\ alerts front = []
    /\ ("error" ∉ statuses front)
    /\ contacts_set front = [data]
    /\ last (statuses front)
       = Some (match array_items data with [] => "no-data" | _ :: _ => "connected" end).
Proof.
  intros Hsample.
  destruct (getContacts_returns Papa_parse config w now forceRefresh st Hsample)
    as (data & t & st' & Hget).
  exists data. rewrite (loadContacts_ok _ _ _ _ _ _ _ _ _ _ _ Hget), Hget.
  eexists. split; [reflexivity|]. cbn [fst snd].
  split; [rewrite !app_assoc; reflexivity|].
  destruct silent, (array_items data); cbn;
    rewrite ?elem_of_cons, ?elem_of_nil; repeat split; try reflexivity;
    intros H; decompose [or] H; first [discriminate | contradiction].
Qed.

(** The list loadContacts shows is the one filterContacts computes on the
    new array; when the array is empty loadContacts leaves the list shown
    as it is. *)
Theorem loadContacts_filters_like_filterContacts (config : Config) (w : World) (now : Z)
    (searchQuery filterBy : string) (silent forceRefresh : bool) (st : State) :
  filtered_lists
    (loadContacts Papa_parse config w now searchQuery filterBy silent forceRefresh st).1.1
  = match (getContacts Papa_parse config w now forceRefresh st).1.1 with
    | Ok data =>
        match array_items data with
        | [] => []
        | _ :: _ => [filterContacts (array_items data) searchQuery filterBy]
        end
    | Err _ => []
    end.
Proof.
  destruct (getContacts Papa_parse config w now forceRefresh st) as [[[data | e] t] st']
    eqn:Hget.
  - rewrite (loadContacts_ok _ _ _ _ _ _ _ _ _ _ _ Hget). cbn [fst snd].
    destruct silent, (array_items data); reflexivity.
  - unfold loadContacts. rewrite Hget. cbn [fst snd].
    destruct silent; [reflexivity|].
    destruct (includes e "fetch"); [reflexivity|].
    destruct (includes e "parsing"); reflexivity.
Qed.

Lemma cache_hit_forced (now : Z) (st : State) : cache_hit now true st = None.
Proof. unfold cache_hit. now destruct (cachedContacts st). Qed.

(** switchToOfflineMode sets the status offline for no longer than the
    reload takes: the reload overwrites it with connecting and, the sample
    being loaded from the bundle without any call to the network or to the
    file system, with connected. *)
Theorem switchToOfflineMode_ends_connected (config : Config) (w : World) (now : Z)
    (searchQuery filterBy : string) (st : State) :
  papa_parses_sample Papa_parse ->
  w_unexpected w = None ->
  statuses (switchToOfflineMode Papa_parse config w now searchQuery filterBy st).1.1.1
  = ["offline"; "connecting"; "connected"]
  /\ (switchToOfflineMode Papa_parse config w now searchQuery filterBy st).1.1.2
     = [EvLoadLocal]
  /\ contacts_set (switchToOfflineMode Papa_parse config w now searchQuery filterBy st).1.1.1
     = [mkArray (allocated st) (map formatContact localRows)]
  /\ useLocalCSV (switchToOfflineMode Papa_parse config w now searchQuery filterBy st).2 = true
  /\ csvUrl (switchToOfflineMode Papa_parse config w now searchQuery filterBy st).2
     = csvUrl config.
Proof.
  intros Hsample Hfine. unfold switchToOfflineMode.
  set (config' := {| csvUrl := csvUrl config; useLocalCSV := true |}).
  assert (Hget : getContacts Papa_parse config' w now true st
                 = ((Ok (mkArray (allocated st) (map formatContact localRows)), [EvLoadLocal]),
                    mkState (Some (mkArray (allocated st) (map formatContact localRows))) now
                            (S (allocated st)))).
  { unfold getContacts. rewrite cache_hit_forced.
    now rewrite (try_block_sample Papa_parse config' w Hsample eq_refl Hfine). }
  rewrite (loadContacts_ok _ _ _ _ _ _ _ _ _ _ _ Hget). cbn [fst snd array_items].
  repeat split.
Qed.



End ScreenProperties.

Lemma loadContacts_never_shows_an_error_witness :
  exists data front,
    (getContacts papa_reference app_config world_500 0 false initial_state).1.1 = Ok data
    /\ (loadContacts papa_reference app_config world_500 0 "" "all" false false
          initial_state).1.1
       = front ++ [SetLoading false; SetRefreshing false]
    /\ alerts front = []
    /\ contacts_set front = [data].
Proof.
  destruct (loadContacts_never_shows_an_error papa_reference app_config world_500 0 "" "all"
              false false initial_state papa_reference_parses_sample)
    as (data & front & Hget & Hload & Halerts & _ & Hset & _).
  exists data, front. repeat split; assumption.
Defined.

Lemma switchToOfflineMode_ends_connected_witness :
  statuses (switchToOfflineMode papa_reference app_config world_500 0 "" "all"
              initial_state).1.1.1
  = ["offline"; "connecting"; "connected"].
Proof.
  exact (proj1 (switchToOfflineMode_ends_connected papa_reference app_config world_500 0 ""
                  "all" initial_state papa_reference_parses_sample eq_refl)).
Defined.

